(** * Covered interest parity: the rate engine and the rate interpreter

    A shallow embedding of [cip.py] and [cip_interpreter.py].

    The program is Python: its numbers are [float] (IEEE 754 binary64, rounded
    to nearest, ties to even) and [int] (unbounded), and a division by zero
    raises [ZeroDivisionError] instead of producing an infinity.  The code is
    embedded once, over an interface [PyFloat] of the float operations it
    uses, and read at the instance [Binary64]: the floats CPython computes
    with, every operation rounded, on the bit-exact model [spec_float] of the
    standard library.

    What the program returns is stated on [Binary64].  Rationals appear only
    as the exact values of floats ([Binary64.to_Q]), to say how far a
    computed float is from a quantity. *)

From Stdlib Require Import ZArith QArith Qabs Qpower Qfield Bool List String.
From Stdlib Require Import Ascii.
From Stdlib Require Import DecimalString Lia Lra Psatz.
From Corelib Require Import SpecFloat.
Import ListNotations.

Set Implicit Arguments.

(** ** Python results: a value or a raised exception *)

Module Py.

(** The two exceptions this program can raise. *)
Inductive exn : Type :=
| ZeroDivisionError
| OverflowError.

Inductive result (A : Type) : Type :=
| Return (a : A)
| Raise (e : exn).

Arguments Return {A} a.
Arguments Raise {A} e.

Definition bind {A B : Type} (r : result A) (k : A -> result B) : result B :=
  match r with
  | Return a => k a
  | Raise e => Raise e
  end.

Definition raises {A : Type} (r : result A) : Prop := exists e, r = Raise e.

Definition returns {A : Type} (r : result A) : Prop := exists a, r = Return a.

End Py.

Import Py.

Declare Scope py_scope.
Delimit Scope py_scope with py.
Notation "x <- e ;; k" := (bind e (fun x => k))
  (at level 61, e at next level, right associativity) : py_scope.

(** ** The float operations the program uses *)

Class PyFloat (F : Type) : Type := {
  (** an [int] operand of a mixed [int]/[float] operation: [float(n)] *)
  float_of_int : Z -> F;
  (** the decimal literal [m]e-[k], as the parser reads it *)
  float_lit : Z -> nat -> F;
  float_add : F -> F -> F;
  float_sub : F -> F -> F;
  float_mul : F -> F -> F;
  (** [x / y] on floats: raises [ZeroDivisionError] when [y == 0] *)
  float_truediv : F -> F -> result F;
  (** [a / b] on ints: the quotient as a float *)
  int_truediv : Z -> Z -> result F;
  float_abs : F -> F;
  (** [x < y] *)
  float_lt : F -> F -> bool;
  (** [round(x, ndigits)] for [ndigits >= 0] *)
  round_ndigits : F -> nat -> F;
  (** [format(x, '.<nd>f')] *)
  format_f : nat -> F -> string
}.

Declare Scope pyfloat_scope.
Delimit Scope pyfloat_scope with pyfloat.
Infix "[+]" := float_add (at level 50, left associativity) : pyfloat_scope.
Infix "[-]" := float_sub (at level 50, left associativity) : pyfloat_scope.
Infix "[*]" := float_mul (at level 40, left associativity) : pyfloat_scope.

(** ** cip.py *)

Section RateEngine.

Context {F : Type} `{PyFloat F}.
Local Open Scope py_scope.
Local Open Scope pyfloat_scope.

Definition calculate_forward_rate
    (domestic_rate_annual foreign_rate_annual : F)
    (days_to_maturity : Z) (spot_rate : F) : result F :=
  (* Assume ACT/365 *)
  tenor_years <- int_truediv days_to_maturity 365 ;;
  (* Domestic payoff (in domestic currency) *)
  let domestic_rate_scaled := domestic_rate_annual [*] tenor_years in
  let domestic_payoff := float_of_int 1 [+] domestic_rate_scaled in
  (* Foreign payoff (in foreign currency) *)
  let foreign_rate_scaled := foreign_rate_annual [*] tenor_years in
  inverse_spot <- float_truediv (float_of_int 1) spot_rate ;;
  let foreign_payoff_in_foreign_currency :=
    (float_of_int 1 [+] foreign_rate_scaled) [*] inverse_spot in
  (* Forward rate: domestic currency per 1 unit of foreign currency *)
  float_truediv domestic_payoff foreign_payoff_in_foreign_currency.

(** The [for] loop of [calculate_multiple_forward_rates]: [forward_rates]
    is the list built so far, each round appends one rate at its end. *)
Fixpoint forward_rates_loop
    (domestic_rate_annual foreign_rate_annual : F)
    (tenors_days : list Z) (spot_rate : F)
    (forward_rates : list F) : result (list F) :=
  match tenors_days with
  | [] => Return forward_rates
  | tenor_days :: rest =>
      rate <- calculate_forward_rate domestic_rate_annual
                foreign_rate_annual tenor_days spot_rate ;;
      forward_rates_loop domestic_rate_annual foreign_rate_annual rest
        spot_rate (forward_rates ++ [rate])
  end.

Definition calculate_multiple_forward_rates
    (domestic_rate_annual foreign_rate_annual : F)
    (tenors_days : list Z) (spot_rate : F) : result (list F) :=
  forward_rates_loop domestic_rate_annual foreign_rate_annual tenors_days
    spot_rate [].

Definition does_cip_equality_hold
    (forward_rate domestic_rate_annual foreign_rate_annual : F)
    (days_to_maturity : Z) (spot_rate : F) : result bool :=
  (* Assume ACT/365 *)
  tenor_years <- int_truediv days_to_maturity 365 ;;
  let domestic_rate_scaled := domestic_rate_annual [*] tenor_years in
  let domestic_payoff := float_of_int 1 [+] domestic_rate_scaled in
  let foreign_rate_scaled := foreign_rate_annual [*] tenor_years in
  inverse_spot <- float_truediv (float_of_int 1) spot_rate ;;
  let foreign_payoff_in_foreign_currency :=
    (float_of_int 1 [+] foreign_rate_scaled) [*] inverse_spot in
  Return (float_lt
            (float_abs (domestic_payoff [-]
                          foreign_payoff_in_foreign_currency [*] forward_rate))
            (float_lit 1 10)).

End RateEngine.

(** The two payoffs: the local variables [domestic_payoff] and
    [foreign_payoff_in_foreign_currency], which [calculate_forward_rate] and
    [does_cip_equality_hold] compute with the same expressions before they
    divide or compare. *)
Section Payoffs.

Context {F : Type} `{PyFloat F}.
Local Open Scope py_scope.
Local Open Scope pyfloat_scope.

Definition domestic_payoff (domestic_rate_annual : F) (days_to_maturity : Z)
  : result F :=
  tenor_years <- int_truediv days_to_maturity 365 ;;
  let domestic_rate_scaled := domestic_rate_annual [*] tenor_years in
  Return (float_of_int 1 [+] domestic_rate_scaled).

Definition foreign_payoff_in_foreign_currency
    (foreign_rate_annual : F) (days_to_maturity : Z) (spot_rate : F)
  : result F :=
  tenor_years <- int_truediv days_to_maturity 365 ;;
  let foreign_rate_scaled := foreign_rate_annual [*] tenor_years in
  inverse_spot <- float_truediv (float_of_int 1) spot_rate ;;
  Return ((float_of_int 1 [+] foreign_rate_scaled) [*] inverse_spot).

End Payoffs.

(** ** cip_interpreter.py *)

Section RateInterpreter.

Context {F : Type} `{PyFloat F}.
Local Open Scope py_scope.
Local Open Scope pyfloat_scope.
Local Open Scope string_scope.

(** The attributes [__init__] sets. *)
Record ForwardRateInterpreter : Type := {
  forward_rate : F;
  spot_rate : F;
  tenor_days : Z
}.

(** [ForwardRateInterpreter(forward_rate, spot_rate, tenor_days)] *)
Definition init (forward_rate spot_rate : F) (tenor_days : Z)
  : result ForwardRateInterpreter :=
  Return {| forward_rate := forward_rate;
            spot_rate := spot_rate;
            tenor_days := tenor_days |}.

Definition forward_spot_ratio (self : ForwardRateInterpreter) : result F :=
  quotient <- float_truediv (forward_rate self) (spot_rate self) ;;
  Return (round_ndigits quotient 4).

Definition forward_premium_discount (self : ForwardRateInterpreter)
  : result F :=
  ratio <- forward_spot_ratio self ;;
  Return (round_ndigits (ratio [-] float_of_int 1) 4).

Definition annualised_premium_discount (self : ForwardRateInterpreter)
  : result F :=
  ratio <- forward_spot_ratio self ;;
  tenor_years <- int_truediv (tenor_days self) 360 ;;
  per_year <- float_truediv (float_of_int 1) tenor_years ;;
  Return (round_ndigits ((ratio [-] float_of_int 1) [*] per_year) 4).

Definition forward_points (self : ForwardRateInterpreter) : result F :=
  (* Currently assumes 1 pip is 0.0001 of quoted rate *)
  Return (round_ndigits
            ((forward_rate self [-] spot_rate self) [*] float_of_int 10000) 0).

(** The replacement field of the four f-strings:
    [{abs((self.forward_spot_ratio - 1) * 100):.2f}]; the property is read
    again each time. *)
Definition percent_field (self : ForwardRateInterpreter) : result string :=
  ratio <- forward_spot_ratio self ;;
  Return (format_f 2 (float_abs ((ratio [-] float_of_int 1) [*]
                                   float_of_int 100))).

Definition get_detailed_interpretations (self : ForwardRateInterpreter)
  : result (list string) :=
  ratio <- forward_spot_ratio self ;;
  if float_lt (float_of_int 1) ratio then
    cheaper <- percent_field self ;;
    dearer <- percent_field self ;;
    Return [
      "The forward rate is greater than the spot rate which implies that domestic rates are higher than foreign rates.";
      "Intuition: If the domestic rates are higher than foreign rates then the forward needs to be higher (foreign currency appreciation) than spot to makeup for higher domestic payoff.";
      "1 unit of foreign currency will buy more domestic currency at time T (today) than it does at today's spot (foreign currency is at a forward premium)";
      "Also means the same amount of domestic currency will buy less foreign currency at time T today than it does today's spot (domestic currency is at a forward discount)";
      "Domestic currency forward must be " ++ cheaper ++
        "% cheaper (relative to spot) to prevent arbitrage.";
      "Foreign currency forward must be " ++ dearer ++
        "% more expensive (relative to spot) to prevent arbitrage."
    ]
  else
    dearer <- percent_field self ;;
    cheaper <- percent_field self ;;
    Return [
      "The forward rate is less than the spot rate which implies that domestic rates are lower than foreign rates.";
      "Intuition: If the domestic rates are lower than foreign rates then the forward needs to be lower (foreign currency depreciation) than spot to makeup for lower domestic payoff.";
      "1 unit of foreign currency will buy less domestic currency at time T (today) than it does at today's spot (foreign currency is at a forward discount)";
      "Also means the same amount of domestic currency will buy more foreign currency at time T today than it does today's spot (domestic currency is at a forward premium)";
      "Domestic currency must be " ++ dearer ++
        "% more expensive in the forward (relative to spot) to prevent arbitrage.";
      "Foreign currency must be " ++ cheaper ++
        "% cheaper in the forward to prevent arbitrage."
    ].

End RateInterpreter.

Arguments ForwardRateInterpreter F : clear implicits.

(** ** Decimal rounding and printing, shared by the two instances

    [round] and [format] go through a decimal string: CPython converts the
    float to the decimal with the asked number of digits that is nearest to
    its exact value, ties to even. *)

Module Decimal.

Local Open Scope Z_scope.

(** The integer nearest to [a / b], ties to the even one ([0 < b]). *)
Definition rhe_div (a b : Z) : Z :=
  let q := a / b in
  let r := a mod b in
  match 2 * r ?= b with
  | Lt => q
  | Gt => q + 1
  | Eq => if Z.even q then q else q + 1
  end.

(** What "nearest, ties to even" means for [n] and the rational [a / b]. *)
Definition nearest_even (n a b : Z) : Prop :=
  2 * Z.abs (a - n * b) < b \/
  (2 * Z.abs (a - n * b) = b /\ Z.even n = true).

(** The same for [n] and a rational [q]: [|n - q| <= 1/2], and [n] is even
    when it is half-way. *)
Definition half_even (n : Z) (q : Q) : Prop :=
  (Qabs (inject_Z n - q) < 1 # 2)%Q \/
  ((Qabs (inject_Z n - q) == 1 # 2)%Q /\ Z.even n = true).

Definition digit_char (d : Z) : ascii := ascii_of_nat (48 + Z.to_nat d).

Definition is_digit (c : ascii) : Prop :=
  exists d, 0 <= d < 10 /\ c = digit_char d.

(** The last [nd] decimal digits of [r], most significant first. *)
Fixpoint frac_digits (nd : nat) (r : Z) : string :=
  match nd with
  | O => EmptyString
  | S k => String (digit_char ((r / 10 ^ Z.of_nat k) mod 10)) (frac_digits k r)
  end.

Definition int_digits (n : Z) : string :=
  DecimalString.NilZero.string_of_uint (N.to_uint (Z.to_N n)).

(** [n] is the magnitude scaled by [10 ^ nd]: print it with the point [nd]
    digits from the right. *)
Definition print_fixed (negative : bool) (n : Z) (nd : nat) : string :=
  let sign := if negative then "-"%string else ""%string in
  let whole := int_digits (n / 10 ^ Z.of_nat nd) in
  match nd with
  | O => (sign ++ whole)%string
  | _ => (sign ++ whole ++ "." ++ frac_digits nd n)%string
  end.

End Decimal.

(** ** Python floats: IEEE 754 binary64

    A float is a [spec_float]: a signed zero, a signed infinity, NaN, or
    [S754_finite negative m e] of value [m * 2^e].  CPython's floats are the
    values that [valid_binary 53 1024] accepts; what is proved below for every
    [spec_float] holds for them.  [SFadd], [SFsub], [SFmul] and [SFdiv] round
    to nearest, ties to even, as the hardware does. *)

Module Binary64.

Import Decimal.
Local Open Scope Z_scope.

Definition prec : Z := 53.
Definition emax : Z := 1024.

Definition add := SFadd prec emax.
Definition sub := SFsub prec emax.
Definition mul := SFmul prec emax.
Definition div := SFdiv prec emax.

(** [x == 0]: the two zeros, and nothing else. *)
Definition is_zero (x : spec_float) : bool :=
  match x with
  | S754_zero _ => true
  | _ => false
  end.

(** The float nearest to [n / d], with sign [negative], for [0 <= n]: one
    division of two integers, rounded once. *)
Definition of_ratio (negative : bool) (n : Z) (d : positive) : spec_float :=
  match n with
  | Zpos p => div (S754_finite negative p 0) (S754_finite false d 0)
  | _ => S754_zero negative
  end.

(** [float(n)], exact for the small constants of the program. *)
Definition of_int (n : Z) : spec_float := binary_normalize prec emax n 0 false.

(** The literal [m]e-[k]: the float nearest to [m / 10^k]. *)
Definition lit (m : Z) (k : nat) : spec_float :=
  of_ratio (m <? 0) (Z.abs m) (Z.to_pos (10 ^ Z.of_nat k)).

(** [x / y]: [float.__truediv__] tests the divisor against zero and raises
    before it divides. *)
Definition truediv (x y : spec_float) : result spec_float :=
  if is_zero y then Raise ZeroDivisionError else Return (div x y).

(** [int / int]: the quotient rounded once; a quotient too large for a float
    raises [OverflowError]. *)
Definition int_div (a b : Z) : result spec_float :=
  match b with
  | 0 => Raise ZeroDivisionError
  | _ =>
      match of_ratio (xorb (a <? 0) (b <? 0)) (Z.abs a) (Z.to_pos (Z.abs b)) with
      | S754_infinity _ => Raise OverflowError
      | q => Return q
      end
  end.

(** The integer nearest to [m * 2^e * 10^nd], ties to even. *)
Definition scaled (m : positive) (e : Z) (nd : nat) : Z :=
  match e with
  | Zneg p => rhe_div (Zpos m * 10 ^ Z.of_nat nd) (2 ^ Zpos p)
  | _ => Zpos m * 2 ^ e * 10 ^ Z.of_nat nd
  end.

(** [round(x, nd)] for [0 <= nd]: the decimal with [nd] digits nearest to the
    exact value of [x], ties to even, read back as the nearest float; zeros,
    infinities and NaN round to themselves. *)
Definition round (x : spec_float) (nd : nat) : spec_float :=
  match x with
  | S754_finite negative m e =>
      of_ratio negative (scaled m e nd) (Z.to_pos (10 ^ Z.of_nat nd))
  | _ => x
  end.

(** [format(x, '.<nd>f')]: the same nearest decimal, printed. *)
Definition format (nd : nat) (x : spec_float) : string :=
  match x with
  | S754_nan => "nan"%string
  | S754_infinity negative => if negative then "-inf"%string else "inf"%string
  | S754_zero negative => print_fixed negative 0 nd
  | S754_finite negative m e => print_fixed negative (scaled m e nd) nd
  end.

#[export] Instance binary64 : PyFloat spec_float := {
  float_of_int := of_int;
  float_lit := lit;
  float_add := add;
  float_sub := sub;
  float_mul := mul;
  float_truediv := truediv;
  int_truediv := int_div;
  float_abs := SFabs;
  float_lt := SFltb;
  round_ndigits := round;
  format_f := format
}.

(** Neither an infinity nor NaN. *)
Definition is_finite (x : spec_float) : bool :=
  match x with
  | S754_zero _ | S754_finite _ _ _ => true
  | _ => false
  end.

(** [abs(x - y) <= tolerance], the comparison of the examples. *)
Definition within (tolerance x y : spec_float) : bool :=
  SFleb (SFabs (sub x y)) tolerance.

(** The exact value of a float that has one. *)
Definition to_Q (x : spec_float) : Q :=
  match x with
  | S754_finite negative m e =>
      let magnitude :=
        match e with
        | Zneg p => Zpos m # (2 ^ p)
        | _ => inject_Z (Zpos m * 2 ^ e)
        end in
      if negative then Qopp magnitude else magnitude
  | _ => 0%Q
  end.

(** The [spec_float]s that are floats of CPython: a finite one has its
    canonical mantissa and exponent; every result of an operation does. *)
Definition is_float (x : spec_float) : bool := valid_binary prec emax x.

End Binary64.

(** ** Rounding to nearest in binary64, said with integers and rationals

    The vocabulary of the error bounds below.  [SFadd], [SFsub], [SFmul] and
    [SFdiv] all hand an integer mantissa, an exponent and the position of the
    exact result between two mantissas to [binary_round_aux]; these
    definitions say what that function computes. *)

Module Rounding.

Import Decimal Binary64.

(** Where [r / T] sits in the unit interval, as a [location]. *)
Definition loc_frac (r T : Z) : location :=
  (if r =? 0 then loc_Exact else loc_Inexact (2 * r ?= T))%Z.

(** A shift record stands for the quotient [N / T]: its mantissa is the
    integer part, its two bits locate the fractional part. *)
Definition Rep (mrs : shr_record) (N T : Z) : Prop :=
  (0 < T)%Z /\ shr_m mrs = (N / T)%Z /\
  loc_of_shr_record mrs = loc_frac (N mod T) T.

(** The float with sign [sx] and magnitude [M * 2^E], for a rounded mantissa
    [0 <= M <= 2^53] at the exponent [E] of the format: the last step of
    [binary_round_aux]. *)
Definition round_result (sx : bool) (M E : Z) : spec_float :=
  (if M =? 0 then S754_zero sx
   else if M <? 2 ^ 53 then
     if E <=? 971 then S754_finite sx (Z.to_pos M) E else S754_infinity sx
   else
     if E + 1 <=? 971 then S754_finite sx (Z.to_pos (2 ^ 52)) (E + 1)
     else S754_infinity sx)%Z.

(** [2^e] as a rational. *)
Definition bpow (e : Z) : Q := (2 ^ e)%Q.

(** [M * 2^E] is [x > 0] rounded to nearest, ties to even, in the format:
    [E] is the exponent the format gives to numbers of the size of [x]
    ([-1074] below [2^-1021], else 53 bits of mantissa), and [M] is the
    integer nearest to [x / 2^E], the even one when it is half-way. *)
Definition nearest_in_format (x : Q) (M E : Z) : Prop :=
  (0 < x /\ half_even M (x / bpow E) /\
   ((E = -1074)%Z /\ x < bpow (-1021) \/
    (-1074 < E)%Z /\ bpow (E + 52) <= x /\ x < bpow (E + 53)))%Q.

(** [r] is the exact value [z] rounded once: a zero for [z = 0], else the
    float of the nearest mantissa with the sign of [z], or the infinity of
    that sign when it is out of range. *)
Definition rounded (z : Q) (r : spec_float) : Prop :=
  (z == 0 /\ is_zero r = true)%Q \/
  (exists s M E,
     nearest_in_format (Qabs z) M E /\ r = round_result s M E /\
     (if s : bool then z < 0 else 0 < z)%Q).

(** The unit roundoff [2^-53] and half the smallest positive float,
    [2^-1075]: one rounding changes [x] by at most [u53 * |x| + eta]. *)
Definition u53 : Q := 1 # 9007199254740992.
Definition eta : Q := bpow (-1075).

End Rounding.

#[export] Existing Instance Binary64.binary64.

(** The inputs of the examples: [lit m k] is the literal [m]e-[k]. *)
Module Inputs.

Import Binary64.

Definition rate_5_percent : spec_float := lit 5 2.
Definition rate_6_percent : spec_float := lit 6 2.
Definition rate_2_percent : spec_float := lit 2 2.
Definition spot_1 : spec_float := lit 1 0.
Definition spot_49 : spec_float := lit 49 0.

(** [ForwardRateInterpreter(1.0074, 1.0, 90)] *)
Definition quoted_above_spot : ForwardRateInterpreter spec_float :=
  {| forward_rate := lit 10074 4; spot_rate := spot_1; tenor_days := 90 |}.

(** [ForwardRateInterpreter(1.00001, 1.0, 30)] *)
Definition barely_above_spot : ForwardRateInterpreter spec_float :=
  {| forward_rate := lit 100001 5; spot_rate := spot_1; tenor_days := 30 |}.

(** [ForwardRateInterpreter(1.1995, 1.0, 400)] *)
Definition long_tenor : ForwardRateInterpreter spec_float :=
  {| forward_rate := lit 11995 4; spot_rate := spot_1; tenor_days := 400 |}.

End Inputs.

(** Substrings, for what a text says. *)
Definition infix_of (part whole : string) : Prop :=
  exists before after, whole = (before ++ part ++ after)%string.

(** A decimal numeral with exactly two digits after the point: the numeral
    of an integer, the point, two digits. *)
Definition two_decimals (text : string) : Prop :=
  exists units c1 c2,
    text = (Decimal.int_digits units ++ "." ++
            String c1 (String c2 EmptyString))%string /\
    Decimal.is_digit c1 /\ Decimal.is_digit c2.

(** * Properties *)

(** ** The result monad *)

Lemma bind_Return {A B : Type} (r : result A) (k : A -> result B) (b : B) :
  bind r k = Return b -> exists a, r = Return a /\ k a = Return b.
Proof.
  destruct r as [a|e]; simpl; intros E; [exists a; auto | discriminate].
Qed.

Lemma bind_Raise {A B : Type} (r : result A) (k : A -> result B) (e : exn) :
  bind r k = Raise e ->
  r = Raise e \/ exists a, r = Return a /\ k a = Raise e.
Proof.
  destruct r as [a|e']; simpl; intros E.
  - right; exists a; auto.
  - left; congruence.
Qed.

(** ** Rounding to the nearest integer, ties to even *)

Section NearestEven.

Import Decimal.
Local Open Scope Z_scope.

Lemma rhe_div_nearest_even (a b : Z) :
  0 < b -> nearest_even (rhe_div a b) a b.
Proof.
  intros Hb. unfold nearest_even, rhe_div.
  pose proof (Z.div_mod a b ltac:(lia)) as Hdm.
  pose proof (Z.mod_pos_bound a b Hb) as Hr.
  set (q := a / b) in *. set (r := a mod b) in *.
  destruct (Z.compare_spec (2 * r) b) as [E|L|G].
  - destruct (Z.even q) eqn:Eq.
    + right. split; [nia | exact Eq].
    + right. split; [nia|]. rewrite Z.even_add, Eq. reflexivity.
  - left. nia.
  - left. nia.
Qed.

Lemma even_not_consecutive (n m : Z) :
  Z.even n = true -> Z.even m = true -> n - m <> 1.
Proof.
  intros Hn Hm E.
  apply Z.even_spec in Hn as (k & ->).
  apply Z.even_spec in Hm as (j & ->). lia.
Qed.

(** Two integers nearest to the same ratio, both even if half-way, are
    one. *)
Lemma nearest_even_unique (n m a b : Z) :
  0 < b -> nearest_even n a b -> nearest_even m a b -> n = m.
Proof.
  intros Hb Hn Hm. unfold nearest_even in *.
  remember (a - n * b) as x eqn:Ex. remember (a - m * b) as y eqn:Ey.
  assert (Exy : (m - n) * b = x - y) by (subst; ring).
  assert (Hx : 2 * Z.abs x <= b) by lia.
  assert (Hy : 2 * Z.abs y <= b) by lia.
  assert (Hd : -1 <= m - n <= 1) by nia.
  assert (Hcases : m - n = -1 \/ m - n = 0 \/ m - n = 1) by lia.
  destruct Hcases as [D|[D|D]]; [|lia|]; exfalso.
  - apply (even_not_consecutive n m); [| |lia];
      destruct Hn as [Hn|[_ Hn]], Hm as [Hm|[_ Hm]]; try assumption; nia.
  - apply (even_not_consecutive m n); [| |lia];
      destruct Hn as [Hn|[_ Hn]], Hm as [Hm|[_ Hm]]; try assumption; nia.
Qed.

Lemma nearest_even_same_ratio (n a b c d : Z) :
  0 < b -> 0 < d -> a * d = c * b ->
  nearest_even n a b -> nearest_even n c d.
Proof.
  intros Hb Hd E. unfold nearest_even.
  assert (K : b * (c - n * d) = d * (a - n * b)) by nia.
  assert (Kabs : b * Z.abs (c - n * d) = d * Z.abs (a - n * b)).
  { rewrite <- (Z.abs_eq b) at 1 by lia. rewrite <- (Z.abs_eq d) at 2 by lia.
    rewrite <- !Z.abs_mul. now rewrite K. }
  intros [H|[H He]]; [left|right; split; [|exact He]]; nia.
Qed.

Lemma half_even_Qeq (n : Z) (p q : Q) :
  (p == q)%Q -> half_even n p -> half_even n q.
Proof. intros E. unfold half_even. now rewrite E. Qed.

Lemma nearest_even_half_even (n a : Z) (b : positive) :
  nearest_even n a (Zpos b) -> half_even n (a # b).
Proof.
  unfold nearest_even, half_even.
  assert (E : (inject_Z n - (a # b) == (n * Zpos b - a) # b)%Q).
  { unfold Qeq, Qminus, Qplus, Qopp, inject_Z; simpl. nia. }
  rewrite E. unfold Qlt, Qeq, Qabs; cbn [Qnum Qden].
  intros [H|[H He]]; [left|right; split; [|exact He]]; lia.
Qed.

Lemma half_even_exact (n : Z) : half_even n (inject_Z n).
Proof.
  left. assert (E : (inject_Z n - inject_Z n == 0)%Q) by ring.
  rewrite E. reflexivity.
Qed.

(** What [round] and [format] compute from a finite float is the integer
    nearest to its exact magnitude scaled by [10 ^ nd], ties to even. *)
Lemma binary64_scaled_half_even (m : positive) (e : Z) (nd : nat) :
  half_even (Binary64.scaled m e nd)
    (Binary64.to_Q (S754_finite false m e) * inject_Z (10 ^ Z.of_nat nd)).
Proof.
  assert (Hten : 0 < 10 ^ Z.of_nat nd) by (apply Z.pow_pos_nonneg; lia).
  unfold Binary64.scaled, Binary64.to_Q. destruct e as [|p|p].
  - eapply half_even_Qeq; [|apply half_even_exact].
    rewrite <- inject_Z_mult. reflexivity.
  - eapply half_even_Qeq; [|apply half_even_exact].
    rewrite <- inject_Z_mult. reflexivity.
  - eapply half_even_Qeq;
      [|apply nearest_even_half_even with (b := (2 ^ p)%positive);
        rewrite Pos2Z.inj_pow; apply rhe_div_nearest_even;
        apply Z.pow_pos_nonneg; lia].
    unfold Qeq, Qmult, inject_Z; simpl. lia.
Qed.

Lemma digit_char_is_digit (n : Z) : is_digit (digit_char (n mod 10)).
Proof.
  exists (n mod 10). split; [apply Z.mod_pos_bound; lia | reflexivity].
Qed.

Lemma print_fixed_two_decimals (n : Z) : two_decimals (print_fixed false n 2).
Proof.
  exists (n / 10 ^ Z.of_nat 2),
         (digit_char ((n / 10 ^ Z.of_nat 1) mod 10)),
         (digit_char ((n / 10 ^ Z.of_nat 0) mod 10)).
  split; [reflexivity|]. split; apply digit_char_is_digit.
Qed.

Lemma format_abs_two_decimals (x : spec_float) :
  Binary64.format 2 (SFabs x) = "nan"%string \/
  Binary64.format 2 (SFabs x) = "inf"%string \/
  two_decimals (Binary64.format 2 (SFabs x)).
Proof.
  destruct x as [s|s| |s m e]; cbn [SFabs Binary64.format]; auto;
    right; right; apply print_fixed_two_decimals.
Qed.

End NearestEven.

(** ** The loop over the tenors *)

Section MultipleRates.

Context {F : Type} `{PyFloat F}.
Variables (d f s : F).

(** What the loop returns: the rates of the tenors, in order, after the
    rates it started with. *)
Lemma forward_rates_loop_Return (tenors : list Z) :
  forall done rates,
    forward_rates_loop d f tenors s done = Return rates ->
    exists fresh,
      rates = done ++ fresh /\
      Forall2 (fun t r => calculate_forward_rate d f t s = Return r)
              tenors fresh.
Proof.
  induction tenors as [|t rest IH]; simpl; intros done rates E.
  - injection E as <-. exists []. split; [now rewrite app_nil_r | constructor].
  - apply bind_Return in E as (r & Er & E).
    apply IH in E as (fresh & -> & Hall).
    exists (r :: fresh). split.
    + now rewrite <- app_assoc.
    + now constructor.
Qed.

Lemma forward_rates_loop_Raise (tenors : list Z) :
  forall done e,
    forward_rates_loop d f tenors s done = Raise e ->
    exists t, In t tenors /\ calculate_forward_rate d f t s = Raise e.
Proof.
  induction tenors as [|t rest IH]; simpl; intros done e E; [discriminate|].
  apply bind_Raise in E as [E | (r & _ & E)].
  - exists t; auto.
  - apply IH in E as (t' & Hin & E). exists t'; auto.
Qed.

Lemma forward_rates_loop_returns (tenors : list Z) :
  (forall t, In t tenors -> returns (calculate_forward_rate d f t s)) ->
  forall done, returns (forward_rates_loop d f tenors s done).
Proof.
  induction tenors as [|t rest IH]; simpl; intros Hall done.
  - now exists done.
  - destruct (Hall t (or_introl eq_refl)) as (r & ->). simpl.
    apply IH. intros t' Hin. apply Hall. now right.
Qed.

End MultipleRates.

(** C4. [calculate_multiple_forward_rates] returns the empty list for no
    tenor; a list it returns has the length of the tenor list and, at every
    index, the value [calculate_forward_rate] returns for the tenor at that
    index; it returns as soon as every single call does, and an exception it
    raises is the exception of one of the calls. *)
Theorem multiple_forward_rates_pointwise
    {F : Type} `{PyFloat F} (d f s : F) (tenors : list Z) :
  calculate_multiple_forward_rates d f [] s = Return [] /\
  (forall rates,
      calculate_multiple_forward_rates d f tenors s = Return rates ->
      List.length rates = List.length tenors /\
      forall i t, nth_error tenors i = Some t ->
        exists r, nth_error rates i = Some r /\
                  calculate_forward_rate d f t s = Return r) /\
  ((forall t, In t tenors -> returns (calculate_forward_rate d f t s)) ->
   returns (calculate_multiple_forward_rates d f tenors s)) /\
  (forall e,
      calculate_multiple_forward_rates d f tenors s = Raise e ->
      exists t, In t tenors /\ calculate_forward_rate d f t s = Raise e).
Proof.
  unfold calculate_multiple_forward_rates.
  split; [reflexivity|]. split; [|split].
  - intros rates E.
    apply forward_rates_loop_Return in E as (fresh & -> & Hall). simpl.
    split.
    + symmetry. eapply Forall2_length; eassumption.
    + induction Hall as [|t r ts rs Htr _ IH]; intros [|i] t' Hi;
        simpl in *; try discriminate.
      * injection Hi as <-. exists r; auto.
      * now apply IH.
  - intros Hall. now apply forward_rates_loop_returns.
  - intros e E. eapply forward_rates_loop_Raise; eassumption.
Qed.

(** ** Division by zero on binary64 *)

Section DivisionByZero.

Import Binary64.

Lemma truediv_by_zero (x : spec_float) (negative : bool) :
  truediv x (S754_zero negative) = Raise ZeroDivisionError.
Proof. reflexivity. Qed.

Lemma truediv_nonzero (x y : spec_float) :
  is_zero y = false -> truediv x y = Return (div x y).
Proof. unfold truediv. now intros ->. Qed.

Lemma int_div_zero_numerator (b : Z) :
  (0 < b)%Z -> int_div 0 b = Return (S754_zero false).
Proof.
  destruct b as [|b|b]; try lia. intros _. reflexivity.
Qed.

Lemma forward_spot_ratio_zero_spot (fr : spec_float) (negative : bool) (t : Z) :
  forward_spot_ratio
    {| forward_rate := fr; spot_rate := S754_zero negative; tenor_days := t |}
  = Raise ZeroDivisionError.
Proof. reflexivity. Qed.

Lemma forward_spot_ratio_nonzero_spot (self : ForwardRateInterpreter spec_float) :
  is_zero (spot_rate self) = false ->
  forward_spot_ratio self =
  Return (round (div (forward_rate self) (spot_rate self)) 4).
Proof.
  intros Hs. unfold forward_spot_ratio. simpl.
  now rewrite (truediv_nonzero _ _ Hs).
Qed.

End DivisionByZero.

(** C6. With a zero spot rate [calculate_forward_rate] and
    [does_cip_equality_hold] raise and return nothing: [ZeroDivisionError],
    unless the day count is so large that [days / 365] has already raised
    [OverflowError]; reading [annualised_premium_discount] with
    [tenor_days == 0] raises [ZeroDivisionError] whatever the rates.  No
    value, so no NaN and no infinity, comes back in these cases. *)
Theorem zero_spot_or_zero_tenor_raises
    (d f fr forward spot : spec_float) (t : Z) (negative : bool) :
  (raises (calculate_forward_rate d f t (S754_zero negative)) /\
   ~ returns (calculate_forward_rate d f t (S754_zero negative)) /\
   (returns (Binary64.int_div t 365) ->
    calculate_forward_rate d f t (S754_zero negative) = Raise ZeroDivisionError)) /\
  (raises (does_cip_equality_hold fr d f t (S754_zero negative)) /\
   ~ returns (does_cip_equality_hold fr d f t (S754_zero negative)) /\
   (returns (Binary64.int_div t 365) ->
    does_cip_equality_hold fr d f t (S754_zero negative) = Raise ZeroDivisionError)) /\
  (annualised_premium_discount
     {| forward_rate := forward; spot_rate := spot; tenor_days := 0 |}
   = Raise ZeroDivisionError /\
   ~ returns (annualised_premium_discount
                {| forward_rate := forward; spot_rate := spot; tenor_days := 0 |})).
Proof.
  assert (engine : forall (A : Type) (k : spec_float -> spec_float -> result A),
             let r := bind (Binary64.int_div t 365) (fun ty =>
                        bind (Binary64.truediv (Binary64.of_int 1) (S754_zero negative))
                             (k ty)) in
             raises r /\ ~ returns r /\
             (returns (Binary64.int_div t 365) -> r = Raise ZeroDivisionError)).
  { intros A k. cbv zeta.
    destruct (Binary64.int_div t 365) as [ty|e];
      cbn [bind Binary64.truediv Binary64.is_zero].
    - split; [now exists ZeroDivisionError|].
      split; [intros (v & E); discriminate | reflexivity].
    - split; [now exists e|].
      split; intros (v & E); discriminate. }
  split; [|split].
  - apply (engine _ (fun ty inv =>
      float_truediv (float_add (float_of_int 1) (float_mul d ty))
        (float_mul (float_add (float_of_int 1) (float_mul f ty)) inv))).
  - apply (engine _ (fun ty inv =>
      Return (float_lt
                (float_abs (float_sub (float_add (float_of_int 1) (float_mul d ty))
                   (float_mul (float_mul (float_add (float_of_int 1) (float_mul f ty)) inv) fr)))
                (float_lit 1 10)))).
  - assert (E : annualised_premium_discount
                  {| forward_rate := forward; spot_rate := spot; tenor_days := 0 |}
                = Raise ZeroDivisionError).
    { unfold annualised_premium_discount, forward_spot_ratio. simpl.
      destruct (Binary64.truediv forward spot) as [q|e] eqn:Eq; simpl.
      - reflexivity.
      - unfold Binary64.truediv in Eq.
        destruct (Binary64.is_zero spot); congruence. }
    split; [exact E|]. rewrite E. intros (v & Ev); discriminate.
Qed.

(** C10. Constructing an interpreter always returns, with the three
    arguments stored unchanged; a zero spot rate or a zero tenor shows only
    when a derived property is read: [forward_spot_ratio],
    [forward_premium_discount], [annualised_premium_discount] and
    [get_detailed_interpretations] raise [ZeroDivisionError] on a zero spot
    rate, [annualised_premium_discount] raises it on a zero tenor, and
    [forward_points], which divides nothing, returns all the same. *)
Theorem construction_defers_division_errors
    (forward spot : spec_float) (t : Z) :
  exists self,
    init forward spot t = Return self /\
    forward_rate self = forward /\ spot_rate self = spot /\
    tenor_days self = t /\
    returns (forward_points self) /\
    (Binary64.is_zero spot = true ->
       forward_spot_ratio self = Raise ZeroDivisionError /\
       forward_premium_discount self = Raise ZeroDivisionError /\
       annualised_premium_discount self = Raise ZeroDivisionError /\
       get_detailed_interpretations self = Raise ZeroDivisionError) /\
    (Binary64.is_zero spot = false ->
       returns (forward_spot_ratio self) /\
       returns (forward_premium_discount self) /\
       (t = 0%Z -> annualised_premium_discount self = Raise ZeroDivisionError)).
Proof.
  eexists. split; [reflexivity|]. simpl.
  repeat (split; [reflexivity|]).
  split; [eexists; reflexivity|]. split.
  - destruct spot; try discriminate. intros _. repeat split.
  - intros Hs.
    pose proof (forward_spot_ratio_nonzero_spot
                  {| forward_rate := forward; spot_rate := spot; tenor_days := t |}
                  Hs) as E.
    split; [|split].
    + rewrite E. eexists; reflexivity.
    + unfold forward_premium_discount. rewrite E. eexists; reflexivity.
    + intros ->. unfold annualised_premium_discount.
      unfold forward_spot_ratio in *. simpl in *.
      rewrite (truediv_nonzero _ _ Hs). reflexivity.
Qed.

(** ** The documented examples, evaluated on binary64 *)

(** C3. The examples of the two docstrings are not what the code returns:
    for 365 days it returns 1.0294117647058825, not a value within 1e-4 of
    1.0074 (1.0074 is its value for 90 days), and for the tenors 30, 60, 90
    and 120 none of the four rates is within 1e-4 of the documented one. *)
Theorem docstring_examples_not_reproduced :
  calculate_forward_rate Inputs.rate_5_percent Inputs.rate_2_percent 365
    Inputs.spot_1
  = Return (S754_finite false 4636058439940217 (-52)) /\
  Binary64.within (Binary64.lit 1 4)
    (S754_finite false 4636058439940217 (-52)) (Binary64.lit 10074 4) = false /\
  Binary64.within (Binary64.lit 1 4)
    (S754_finite false 4636058439940217 (-52)) (Binary64.lit 10294 4) = true /\
  calculate_multiple_forward_rates Inputs.rate_5_percent Inputs.rate_2_percent
    [30; 60; 90; 120]%Z Inputs.spot_1
  = Return [S754_finite false 4514686169122775 (-52);
            S754_finite false 4525736381410002 (-52);
            S754_finite false 4536750442511991 (-52);
            S754_finite false 4547728529543968 (-52)] /\
  map (fun '(computed, documented) =>
         Binary64.within (Binary64.lit 1 4) computed documented)
      [(S754_finite false 4514686169122775 (-52), Binary64.lit 10074 4);
       (S754_finite false 4525736381410002 (-52), Binary64.lit 10147 4);
       (S754_finite false 4536750442511991 (-52), Binary64.lit 10220 4);
       (S754_finite false 4547728529543968 (-52), Binary64.lit 10294 4)]
  = [false; false; false; false] /\
  Binary64.within (Binary64.lit 1 4)
    (S754_finite false 4536750442511991 (-52)) (Binary64.lit 10074 4) = true.
Proof. repeat split; vm_compute; reflexivity. Qed.

(** Against C1: with a domestic rate of 1000016.0 (and 0.02, 365 days, spot
    1.0) the forward rate is computed, and the check on it returns [False]:
    the payoff 1000017.0 and the product of the foreign payoff with the
    rounded forward rate are two neighbouring floats, 2^-33 apart, more than
    the absolute tolerance 1e-10.  And a spot rate that is not zero does not
    make the forward rate computable: with the foreign rate -1.0 and 365 days
    the foreign payoff is zero and the division raises. *)
Lemma round_trip_check_fails_on_large_payoff :
  Binary64.is_zero Inputs.spot_1 = false /\
  calculate_forward_rate (Binary64.lit 1000016 0) Inputs.rate_2_percent 365
    Inputs.spot_1
  = Return (S754_finite false 8421647667537318 (-33)) /\
  does_cip_equality_hold (S754_finite false 8421647667537318 (-33))
    (Binary64.lit 1000016 0) Inputs.rate_2_percent 365 Inputs.spot_1
  = Return false /\
  calculate_forward_rate Inputs.rate_5_percent (Binary64.lit (-1) 0) 365
    Inputs.spot_1
  = Raise ZeroDivisionError.
Proof. repeat split; vm_compute; reflexivity. Qed.

(** Against C4: a spot rate that is not zero does not make the function
    return a list.  With the foreign rate -1.0 and 365 days the foreign
    payoff is zero and the call raises [ZeroDivisionError]; with 10^400 days
    the tenor in years is too large for a float and it raises
    [OverflowError], also after a tenor that went through. *)
Lemma multiple_rates_raise_with_non_zero_spot :
  Binary64.is_zero Inputs.spot_1 = false /\
  calculate_multiple_forward_rates Inputs.rate_5_percent (Binary64.lit (-1) 0)
    [365]%Z Inputs.spot_1
  = Raise ZeroDivisionError /\
  calculate_multiple_forward_rates Inputs.rate_5_percent Inputs.rate_2_percent
    [10 ^ 400]%Z Inputs.spot_1
  = Raise OverflowError /\
  calculate_multiple_forward_rates Inputs.rate_5_percent Inputs.rate_2_percent
    [30; 10 ^ 400]%Z Inputs.spot_1
  = Raise OverflowError.
Proof. repeat split; vm_compute; reflexivity. Qed.

(** The check also fails when a payoff or the rate is not finite.  With the
    spot rate 5e-324 its reciprocal is infinite, so is the foreign payoff,
    the forward rate is 0.0 and the product [inf * 0.0] is NaN; with the
    spot rate 2^1023 and the domestic rate 3.0 the quotient of the payoffs
    overflows, the forward rate is infinite and so is the residual. *)
Lemma round_trip_check_fails_on_infinities :
  calculate_forward_rate (Binary64.lit 1 0) (Binary64.lit 1 0) 365
    (S754_finite false 1 (-1074))
  = Return (S754_zero false) /\
  does_cip_equality_hold (S754_zero false) (Binary64.lit 1 0)
    (Binary64.lit 1 0) 365 (S754_finite false 1 (-1074))
  = Return false /\
  calculate_forward_rate (Binary64.lit 3 0) (Binary64.lit 0 0) 365
    (S754_finite false 4503599627370496 971)
  = Return (S754_infinity false) /\
  does_cip_equality_hold (S754_infinity false) (Binary64.lit 3 0)
    (Binary64.lit 0 0) 365 (S754_finite false 4503599627370496 971)
  = Return false.
Proof. repeat split; vm_compute; reflexivity. Qed.

(** With no day to maturity and finite rates, the forward rate on floats is
    [1 / (1 * (1 / spot_rate))], whatever the rates: the two scaled rates
    are zeros, the two payoffs 1.0 and [1 * (1 / spot_rate)]. *)
Lemma zero_tenor_is_double_reciprocal (d f s : spec_float) :
  Binary64.is_finite d = true -> Binary64.is_finite f = true ->
  calculate_forward_rate d f 0 s =
  bind (Binary64.truediv (Binary64.of_int 1) s)
       (fun inverse_spot =>
          Binary64.truediv (Binary64.of_int 1)
            (Binary64.mul (Binary64.of_int 1) inverse_spot)).
Proof.
  destruct d as [sd|sd| |sd md ed], f as [sf|sf| |sf mf ef];
    try discriminate; intros _ _; reflexivity.
Qed.

(** Against C2: for the spot rate 49.0 and no day to maturity the result is
    49.00000000000001, the float after 49.0: each of the two divisions
    [1 / spot_rate] and [1 / (1 / spot_rate)] is rounded. *)
Lemma zero_tenor_result_differs_from_spot :
  Binary64.is_zero Inputs.spot_49 = false /\
  Inputs.spot_49 = S754_finite false 6896136929411072 (-47) /\
  calculate_forward_rate Inputs.rate_5_percent Inputs.rate_2_percent 0
    Inputs.spot_49
  = Return (S754_finite false 6896136929411073 (-47)) /\
  SFeqb (S754_finite false 6896136929411073 (-47)) Inputs.spot_49 = false.
Proof. repeat split; vm_compute; reflexivity. Qed.

(** Outside the normal range the result need not be near the spot rate: for
    the smallest positive float, 5e-324, the reciprocal is infinite and the
    result is 0.0. *)
Lemma zero_tenor_result_for_smallest_spot :
  Binary64.is_float (S754_finite false 1 (-1074)) = true /\
  calculate_forward_rate Inputs.rate_5_percent Inputs.rate_2_percent 0
    (S754_finite false 1 (-1074))
  = Return (S754_zero false).
Proof. split; vm_compute; reflexivity. Qed.

(** Against C5: with the foreign rate -2.0, 365 days and the spot rate 1.0
    the foreign payoff is negative, and raising the domestic rate from 0.05
    to 0.06 lowers the forward rate from -1.05 to -1.06.  And where the
    forward rate does rise with the domestic rate it does not rise strictly:
    0.05 and the float after it give the same forward rate (foreign rate
    0.02, 365 days, spot rate 1.0). *)
Lemma forward_rate_decreases_in_domestic_rate :
  (0 < 365)%Z /\ Binary64.is_zero Inputs.spot_1 = false /\
  SFltb Inputs.rate_5_percent Inputs.rate_6_percent = true /\
  calculate_forward_rate Inputs.rate_5_percent (Binary64.lit (-2) 0) 365
    Inputs.spot_1
  = Return (Binary64.lit (-105) 2) /\
  calculate_forward_rate Inputs.rate_6_percent (Binary64.lit (-2) 0) 365
    Inputs.spot_1
  = Return (Binary64.lit (-106) 2) /\
  SFltb (Binary64.lit (-106) 2) (Binary64.lit (-105) 2) = true /\
  Inputs.rate_5_percent = S754_finite false 7205759403792794 (-57) /\
  SFltb (S754_finite false 7205759403792794 (-57))
        (S754_finite false 7205759403792795 (-57)) = true /\
  calculate_forward_rate (S754_finite false 7205759403792794 (-57))
    Inputs.rate_2_percent 365 Inputs.spot_1
  = Return (S754_finite false 4636058439940217 (-52)) /\
  calculate_forward_rate (S754_finite false 7205759403792795 (-57))
    Inputs.rate_2_percent 365 Inputs.spot_1
  = Return (S754_finite false 4636058439940217 (-52)).
Proof. repeat split; vm_compute; reflexivity. Qed.

(** Against C7: the forward rate 1.00001 is above the spot rate 1.0, its
    ratio rounds to 1.0, and the first statement says the forward rate is
    less than the spot rate and domestic rates are lower. *)
Lemma forward_above_spot_reported_as_below :
  SFltb (spot_rate Inputs.barely_above_spot)
        (forward_rate Inputs.barely_above_spot) = true /\
  forward_spot_ratio Inputs.barely_above_spot = Return (Binary64.of_int 1) /\
  exists rest,
    get_detailed_interpretations Inputs.barely_above_spot
    = Return ("The forward rate is less than the spot rate which implies that domestic rates are lower than foreign rates."%string
              :: rest).
Proof.
  split; [vm_compute; reflexivity|]. split; [vm_compute; reflexivity|].
  eexists. vm_compute. reflexivity.
Qed.

(** Against C9: for [ForwardRateInterpreter(1.1995, 1.0, 400)] the property
    is 0.1795, and [(forward_spot_ratio - 1) * (360 / tenor_days)] rounded
    to 4 places is 0.1796, with the float [360 / 400] and with the exact
    quotient ([rhe_div] is the nearest integer of the value scaled by 10^4):
    [1 / (400 / 360)] is the float below [360 / 400]. *)
Lemma annualised_differs_from_360_over_tenor :
  forward_spot_ratio Inputs.long_tenor = Return (Binary64.lit 11995 4) /\
  annualised_premium_discount Inputs.long_tenor = Return (Binary64.lit 1795 4) /\
  Binary64.int_div 360 400 = Return (Binary64.lit 9 1) /\
  Binary64.round
    (Binary64.mul (Binary64.sub (Binary64.lit 11995 4) (Binary64.of_int 1))
                  (Binary64.lit 9 1)) 4
  = Binary64.lit 1796 4 /\
  Decimal.rhe_div
    (Qnum ((Binary64.to_Q (Binary64.lit 11995 4) - 1) * (360 # 400)) * 10 ^ 4)
    (Zpos (Qden ((Binary64.to_Q (Binary64.lit 11995 4) - 1) * (360 # 400))))
  = 1796%Z /\
  SFeqb (Binary64.lit 1795 4) (Binary64.lit 1796 4) = false.
Proof. repeat split; vm_compute; reflexivity. Qed.

(** ** The interpreter on binary64 *)

(** C8. [forward_points] always returns, and returns
    [(forward_rate - spot_rate) * 10000] rounded to no decimal place: for a
    finite product, the float of the integer nearest to its exact value, the
    even one when it is half-way, with the sign of the product; a product
    that is a zero, an infinity or NaN is returned as it is.  For the forward
    rate 1.0074 and the spot rate 1.0 the property is 74.0, which [== 74]. *)
Theorem forward_points_rounds_half_even
    (self : ForwardRateInterpreter spec_float) :
  exists pips,
    pips = Binary64.mul (Binary64.sub (forward_rate self) (spot_rate self))
                        (Binary64.of_int 10000) /\
    forward_points self = Return (Binary64.round pips 0) /\
    (forall negative m e,
        pips = S754_finite negative m e ->
        exists n,
          Decimal.half_even n (Binary64.to_Q (SFabs pips)) /\
          Binary64.round pips 0 = Binary64.of_ratio negative n 1) /\
    ((forall negative m e, pips <> S754_finite negative m e) ->
     Binary64.round pips 0 = pips) /\
    forward_points Inputs.quoted_above_spot = Return (Binary64.of_int 74) /\
    SFeqb (Binary64.of_int 74) (Binary64.lit 74 0) = true.
Proof.
  eexists. split; [reflexivity|]. split; [reflexivity|].
  split; [|split; [|split; vm_compute; reflexivity]].
  - intros negative m e ->. exists (Binary64.scaled m e 0). split.
    + eapply half_even_Qeq; [|apply binary64_scaled_half_even].
      cbn [SFabs]. change (inject_Z (10 ^ Z.of_nat 0)) with 1%Q. ring.
    + reflexivity.
  - intros Hnf.
    destruct (Binary64.mul _ _) as [s|s| |s m e]; try reflexivity.
    now destruct (Hnf s m e).
Qed.

(** C7, amended. With a spot rate that is not zero,
    [get_detailed_interpretations] returns exactly six strings.  The branch
    is chosen by [forward_spot_ratio], the quotient rounded to 4 places: when
    it is above 1 the first string says that domestic rates are higher than
    foreign rates, and otherwise (which includes a forward rate above the
    spot rate by too little to show in 4 places) that they are lower.  In
    both branches the fifth and the sixth string embed
    [|forward_spot_ratio - 1| * 100] printed with two decimals, or as [inf]
    or [nan] when it is not finite. *)
Theorem detailed_interpretations_follow_rounded_ratio
    (self : ForwardRateInterpreter spec_float) :
  Binary64.is_zero (spot_rate self) = false ->
  exists ratio percent first second third fourth fifth sixth,
    forward_spot_ratio self = Return ratio /\
    percent = Binary64.format 2
                (SFabs (Binary64.mul (Binary64.sub ratio (Binary64.of_int 1))
                                     (Binary64.of_int 100))) /\
    get_detailed_interpretations self
    = Return [first; second; third; fourth; fifth; sixth] /\
    (SFltb (Binary64.of_int 1) ratio = true ->
     infix_of "domestic rates are higher than foreign rates" first) /\
    (SFltb (Binary64.of_int 1) ratio = false ->
     infix_of "domestic rates are lower than foreign rates" first) /\
    infix_of percent fifth /\ infix_of percent sixth /\
    (percent = "nan"%string \/ percent = "inf"%string \/ two_decimals percent).
Proof.
  intros Hs.
  pose proof (forward_spot_ratio_nonzero_spot self Hs) as E.
  set (ratio := Binary64.round
                  (Binary64.div (forward_rate self) (spot_rate self)) 4) in E.
  unfold get_detailed_interpretations, percent_field. rewrite E. cbn [bind].
  exists ratio. eexists.
  destruct (float_lt (float_of_int 1) ratio) eqn:B;
    change (float_lt (float_of_int 1) ratio)
      with (SFltb (Binary64.of_int 1) ratio) in B;
    do 6 eexists;
    (split; [reflexivity|]); (split; [reflexivity|]);
    (split; [reflexivity|]).
  - split.
    { intros _.
      exists "The forward rate is greater than the spot rate which implies that "%string,
             "."%string. reflexivity. }
    split; [congruence|].
    split; [eexists _, _; reflexivity|].
    split; [eexists _, _; reflexivity|].
    apply format_abs_two_decimals.
  - split; [congruence|].
    split.
    { intros _.
      exists "The forward rate is less than the spot rate which implies that "%string,
             "."%string. reflexivity. }
    split; [eexists _, _; reflexivity|].
    split; [eexists _, _; reflexivity|].
    apply format_abs_two_decimals.
Qed.

(** The amended C7 at [ForwardRateInterpreter(1.0074, 1.0, 90)]: six
    strings, the first of the branch above 1, the percentage 0.74. *)
Lemma detailed_interpretations_at_quoted_above_spot :
  Binary64.is_zero (spot_rate Inputs.quoted_above_spot) = false /\
  exists texts fifth,
    get_detailed_interpretations Inputs.quoted_above_spot = Return texts /\
    List.length texts = 6%nat /\
    nth_error texts 4 = Some fifth /\ infix_of "0.74" fifth.
Proof.
  split; [reflexivity|].
  destruct (detailed_interpretations_follow_rounded_ratio
              Inputs.quoted_above_spot eq_refl)
    as (ratio & percent & t1 & t2 & t3 & t4 & t5 & t6 &
        Eratio & Epercent & Etexts & _ & _ & Hfifth & _).
  exists [t1; t2; t3; t4; t5; t6], t5.
  split; [exact Etexts|]. split; [reflexivity|]. split; [reflexivity|].
  assert (Er : ratio = Binary64.lit 10074 4).
  { assert (K : forward_spot_ratio Inputs.quoted_above_spot
                = Return (Binary64.lit 10074 4)) by (vm_compute; reflexivity).
    rewrite K in Eratio. now injection Eratio. }
  rewrite Er in Epercent. vm_compute in Epercent. now rewrite Epercent in Hfifth.
Defined.

(** * Binary64 arithmetic: one rounding per operation

    The engine and the interpreter compute with rounded operations, so what
    they return is stated with error bounds and with monotonicity of the
    rounding.  Both follow from one fact, proved here from the definition of
    [binary_round_aux]: each of [SFadd], [SFsub], [SFmul] and [SFdiv] returns
    its exact result rounded to nearest, ties to even. *)

Unset Implicit Arguments.

(** [|x| <= b] as two inequalities. *)
Ltac split_abs H := apply Qabs_Qle_condition in H; destruct H.

(** ** Shifting right and rounding, on integers *)

Section ShiftAndRound.

Import Decimal Binary64 Rounding.
Local Open Scope Z_scope.

(** [digits2_pos p] is the number of bits of [p]. *)
Lemma digits2_bounds (p : positive) :
  2 ^ (Zpos (digits2_pos p) - 1) <= Zpos p < 2 ^ Zpos (digits2_pos p).
Proof.
  induction p as [p IH | p IH |]; cbn [digits2_pos].
  - rewrite Pos2Z.inj_succ.
    replace (Z.succ (Zpos (digits2_pos p)) - 1) with (Z.succ (Zpos (digits2_pos p) - 1)) by lia.
    rewrite !Z.pow_succ_r by lia. lia.
  - rewrite Pos2Z.inj_succ.
    replace (Z.succ (Zpos (digits2_pos p)) - 1) with (Z.succ (Zpos (digits2_pos p) - 1)) by lia.
    rewrite !Z.pow_succ_r by lia. lia.
  - cbn. lia.
Qed.

Lemma Zdigits2_bounds (m : Z) :
  0 <= m -> 2 ^ (Zdigits2 m - 1) <= m < 2 ^ Zdigits2 m.
Proof.
  destruct m as [| p | p]; try lia; intros _.
  - cbn. lia.
  - apply digits2_bounds.
Qed.

Lemma Zdigits2_nonneg (m : Z) : 0 <= Zdigits2 m.
Proof. destruct m; cbn; lia. Qed.

Lemma Zdigits2_pos (m : Z) : 0 < m -> 0 < Zdigits2 m.
Proof. destruct m; cbn; lia. Qed.

Lemma Zdigits2_le (m k : Z) : 0 <= k -> 0 <= m < 2 ^ k -> Zdigits2 m <= k.
Proof.
  intros Hk [H0 H].
  destruct (Z.eq_dec m 0) as [-> | Hm]; [cbn; lia |].
  destruct (Zdigits2_bounds m ltac:(lia)) as [L _].
  destruct (Z_le_gt_dec (Zdigits2 m) k) as [|G]; [assumption | exfalso].
  assert (2 ^ k <= 2 ^ (Zdigits2 m - 1)) by (apply Z.pow_le_mono_r; lia).
  lia.
Qed.

Lemma Zdigits2_ge (m k : Z) : 0 <= k -> 2 ^ k <= m -> k + 1 <= Zdigits2 m.
Proof.
  intros Hk H.
  assert (0 < 2 ^ k) by (apply Z.pow_pos_nonneg; lia).
  destruct (Zdigits2_bounds m ltac:(lia)) as [_ U].
  destruct (Z_le_gt_dec (k + 1) (Zdigits2 m)) as [|G]; [assumption | exfalso].
  assert (2 ^ Zdigits2 m <= 2 ^ k) by (apply Z.pow_le_mono_r; lia).
  lia.
Qed.

(** The iterator of [SpecFloat] is the one of the standard library. *)
Lemma iter_pos_iter {A : Type} (f : A -> A) (p : positive) (x : A) :
  iter_pos f p x = Pos.iter f x p.
Proof.
  revert x. induction p as [p IH | p IH |]; intro x; cbn [iter_pos Pos.iter].
  - rewrite !IH. rewrite !Pos.iter_swap. reflexivity.
  - rewrite !IH. reflexivity.
  - reflexivity.
Qed.

(** One shift to the right halves the mantissa and keeps the two bits. *)
Lemma shr_1_nonneg (m : Z) (r s : bool) :
  0 <= m ->
  shr_1 (Build_shr_record m r s) = Build_shr_record (m / 2) (Z.odd m) (r || s).
Proof.
  intro H. rewrite <- Z.div2_div.
  destruct m as [| p | p]; [reflexivity | | lia].
  destruct p; reflexivity.
Qed.

Lemma loc_of_shr_record_of_loc (m : Z) (l : location) :
  loc_of_shr_record (shr_record_of_loc m l) = l.
Proof. destruct l as [| []]; reflexivity. Qed.

Lemma shr_m_of_loc (m : Z) (l : location) : shr_m (shr_record_of_loc m l) = m.
Proof. destruct l as [| []]; reflexivity. Qed.

Lemma Rep_init (m D r : Z) :
  0 < D -> 0 <= r < D ->
  Rep (shr_record_of_loc m (loc_frac r D)) (m * D + r) D.
Proof.
  intros HD Hr. unfold Rep. rewrite loc_of_shr_record_of_loc, shr_m_of_loc.
  split; [assumption |]. split.
  - apply Z.div_unique with r; lia.
  - replace ((m * D + r) mod D) with r; [reflexivity |].
    apply Z.mod_unique with m; lia.
Qed.

(** A shift keeps the quotient a record stands for, and doubles the divisor. *)
Lemma shr_1_Rep (mrs : shr_record) (N T : Z) :
  0 <= N -> Rep mrs N T -> Rep (shr_1 mrs) N (2 * T).
Proof.
  intros HN (HT & Hm & Hl). destruct mrs as [m r s]. cbn [shr_m] in Hm.
  assert (0 <= m) by (subst m; apply Z.div_pos; lia).
  rewrite shr_1_nonneg by assumption.
  pose proof (Z.mod_pos_bound N T HT) as Hrho.
  pose proof (Z.div_mod N T ltac:(lia)) as Hdm.
  pose proof (Z.mod_pos_bound m 2 ltac:(lia)) as Hm2.
  pose proof (Z.div_mod m 2 ltac:(lia)) as Hdm2.
  assert (Hq : N / (2 * T) = m / 2).
  { symmetry. apply Z.div_unique with (N mod T + T * (m mod 2)); [nia | ].
    rewrite <- Hm in Hdm. nia. }
  assert (Hr : N mod (2 * T) = N mod T + T * (m mod 2)).
  { symmetry. apply Z.mod_unique with (m / 2); [nia |].
    rewrite <- Hm in Hdm. nia. }
  unfold Rep. cbn [shr_m]. split; [lia |]. split; [congruence |].
  rewrite Hr. rewrite Zodd_mod.
  unfold loc_frac in *. cbn [loc_of_shr_record] in *.
  destruct (Z.eqb_spec (N mod T) 0) as [E0 | N0].
  - assert (r = false /\ s = false) as [-> ->]
      by (destruct r, s; try discriminate Hl; auto).
    rewrite E0. cbn [orb].
    assert (m mod 2 = 0 \/ m mod 2 = 1) as [E | E] by lia; rewrite E.
    + cbn. rewrite Z.mul_0_r. reflexivity.
    +  
      replace (0 + T * 1) with T by lia.
      destruct (Z.eqb_spec T 0); [lia |].
      change (1 =? 1) with true. cbn [loc_of_shr_record].
      rewrite Z.compare_refl. reflexivity.
  - assert (r || s = true) as ->
      by (destruct r, s; try discriminate Hl; auto).
    assert (m mod 2 = 0 \/ m mod 2 = 1) as [E | E] by lia; rewrite E.
    + change (0 =? 1) with false. cbn [loc_of_shr_record].
      destruct (Z.eqb_spec (N mod T + T * 0) 0); [lia |].
      f_equal. symmetry. apply Z.compare_lt_iff. lia.
    + change (1 =? 1) with true. cbn [loc_of_shr_record].
      destruct (Z.eqb_spec (N mod T + T * 1) 0); [lia |].
      f_equal. symmetry. apply Z.compare_gt_iff. lia.
Qed.

Lemma iter_shr_1_Rep (p : positive) (mrs : shr_record) (N T : Z) :
  0 <= N -> Rep mrs N T -> Rep (iter_pos shr_1 p mrs) N (2 ^ Zpos p * T).
Proof.
  intros HN HR. rewrite iter_pos_iter.
  induction p as [| p IH] using Pos.peano_ind.
  - cbn [Pos.iter]. change (2 ^ 1) with 2. apply shr_1_Rep; assumption.
  - rewrite Pos.iter_succ, Pos2Z.inj_succ, Z.pow_succ_r by lia.
    rewrite <- Z.mul_assoc. apply shr_1_Rep; assumption.
Qed.

(** Rounding a record to nearest even is [rhe_div] on the quotient. *)
Lemma round_nearest_even_Rep (mrs : shr_record) (N T : Z) :
  Rep mrs N T ->
  round_nearest_even (shr_m mrs) (loc_of_shr_record mrs) = rhe_div N T.
Proof.
  intros (HT & Hm & Hl). rewrite Hl, Hm. unfold loc_frac, rhe_div.
  pose proof (Z.mod_pos_bound N T HT).
  destruct (Z.eqb_spec (N mod T) 0) as [E | E].
  - rewrite E. cbn [round_nearest_even].
    replace (2 * 0 ?= T) with Lt by (symmetry; apply Z.compare_lt_iff; lia).
    reflexivity.
  - cbn [round_nearest_even]. destruct (2 * (N mod T) ?= T); reflexivity.
Qed.

Lemma fexp_eq (g : Z) : fexp 53 1024 g = Z.max (g - 53) (-1074).
Proof. reflexivity. Qed.

Lemma shr_fexp_Rep (m e D r : Z) :
  0 <= m -> 0 < D -> 0 <= r < D ->
  0 <= fexp 53 1024 (Zdigits2 m + e) - e ->
  exists mrs,
    shr_fexp 53 1024 m e (loc_frac r D) =
      (mrs, fexp 53 1024 (Zdigits2 m + e)) /\
    Rep mrs (m * D + r) (2 ^ (fexp 53 1024 (Zdigits2 m + e) - e) * D).
Proof.
  intros Hm HD Hr Hn. unfold shr_fexp.
  set (E := fexp 53 1024 (Zdigits2 m + e)) in *.
  unfold shr. destruct (E - e) as [| p | p] eqn:En; [| | lia].
  - exists (shr_record_of_loc m (loc_frac r D)). split.
    + f_equal. lia.
    + change (2 ^ 0) with 1. rewrite Z.mul_1_l. apply Rep_init; assumption.
  - exists (iter_pos shr_1 p (shr_record_of_loc m (loc_frac r D))). split.
    + f_equal. lia.
    + apply iter_shr_1_Rep; [nia |]. apply Rep_init; assumption.
Qed.

Lemma rhe_div_bounds (N T : Z) :
  0 < T -> N / T <= rhe_div N T <= N / T + 1.
Proof.
  intros HT. unfold rhe_div.
  destruct (2 * (N mod T) ?= T); [destruct (Z.even (N / T)) | |]; lia.
Qed.

Lemma div_pow2_upper (m d n : Z) :
  0 <= n -> 0 <= d -> 0 <= m < 2 ^ d -> d - n <= 53 -> m / 2 ^ n < 2 ^ 53.
Proof.
  intros Hn Hd Hm Hdn.
  assert (0 < 2 ^ n) by (apply Z.pow_pos_nonneg; lia).
  apply Z.div_lt_upper_bound; [assumption |].
  destruct (Z_le_gt_dec d (n + 53)).
  - assert (2 ^ d <= 2 ^ (n + 53)) by (apply Z.pow_le_mono_r; lia).
    rewrite Z.pow_add_r in * by lia. lia.
  - lia.
Qed.

Lemma div_pow2_lower (m d n : Z) :
  0 <= n -> 2 ^ (d - 1) <= m -> d - n = 53 -> 2 ^ 52 <= m / 2 ^ n.
Proof.
  intros Hn Hm Hdn.
  assert (0 < 2 ^ n) by (apply Z.pow_pos_nonneg; lia).
  apply Z.div_le_lower_bound; [assumption |].
  replace (d - 1) with (n + 52) in Hm by lia.
  rewrite Z.pow_add_r in Hm by lia. lia.
Qed.

(** [binary_round_aux] in closed form: for a mantissa [m], exponent [e] and
    remainder [r / D] it returns the float of [rhe_div] of the exact quotient
    at the exponent of the format, which leaves at most 53 bits, and exactly
    53 above the subnormal range. *)
Lemma binary_round_aux_rhe (sx : bool) (m e D r : Z) :
  0 <= m -> 0 < D -> 0 <= r < D ->
  e <= fexp 53 1024 (Zdigits2 m + e) ->
  binary_round_aux 53 1024 sx m e (loc_frac r D) =
    round_result sx
      (rhe_div (m * D + r) (2 ^ (fexp 53 1024 (Zdigits2 m + e) - e) * D))
      (fexp 53 1024 (Zdigits2 m + e)) /\
  0 <= rhe_div (m * D + r) (2 ^ (fexp 53 1024 (Zdigits2 m + e) - e) * D)
    <= 2 ^ 53 /\
  (-1074 < fexp 53 1024 (Zdigits2 m + e) ->
   2 ^ 52 <= rhe_div (m * D + r)
               (2 ^ (fexp 53 1024 (Zdigits2 m + e) - e) * D)).
Proof.
  intros Hm HD Hr He.
  destruct (shr_fexp_Rep m e D r Hm HD Hr ltac:(lia)) as (mrs & Hshr & HRep).
  set (E := fexp 53 1024 (Zdigits2 m + e)) in *.
  set (n := E - e) in *.
  set (N := m * D + r) in *.
  set (M := rhe_div N (2 ^ n * D)).
  assert (Hn : 0 <= n) by (unfold n; lia).
  assert (H2n : 0 < 2 ^ n) by (apply Z.pow_pos_nonneg; lia).
  assert (HT : 0 < 2 ^ n * D) by nia.
  assert (Hq : N / (2 ^ n * D) = m / 2 ^ n).
  { rewrite Z.mul_comm. rewrite <- Z.div_div by lia.
    f_equal. symmetry. apply Z.div_unique with r; unfold N; lia. }
  pose proof (rhe_div_bounds N (2 ^ n * D) HT) as HMb. fold M in HMb.
  rewrite Hq in HMb.
  pose proof (Zdigits2_bounds m Hm) as Hd.
  pose proof (Zdigits2_nonneg m) as Hdp.
  assert (HE : E = Z.max (Zdigits2 m + e - 53) (-1074)) by reflexivity.
  assert (Hqu : m / 2 ^ n < 2 ^ 53).
  { apply div_pow2_upper with (Zdigits2 m); unfold n; lia. }
  assert (Hq0 : 0 <= m / 2 ^ n) by (apply Z.div_pos; lia).
  assert (HM : 0 <= M <= 2 ^ 53) by lia.
  assert (HMl : -1074 < E -> 2 ^ 52 <= M).
  { intro HEl. assert (2 ^ 52 <= m / 2 ^ n); [| lia].
    apply div_pow2_lower with (Zdigits2 m); [lia| apply Hd | unfold n; lia]. }
  split; [| split; assumption].
  unfold binary_round_aux. rewrite Hshr.
  rewrite (round_nearest_even_Rep mrs N (2 ^ n * D) HRep). fold M.
  unfold round_result.
  destruct (Z.eqb_spec M 0) as [M0 | M0].
  - rewrite M0. unfold shr_fexp. cbn [Zdigits2 shr_record_of_loc].
    rewrite Z.add_0_l. fold E in HE.
    unfold shr. rewrite fexp_eq.
    destruct (Z.max (E - 53) (-1074) - E) eqn:K; try lia; reflexivity.
  - destruct (Z.ltb_spec M (2 ^ 53)) as [Ml | Ml].
    + assert (Zdigits2 M <= 53) by (apply Zdigits2_le; lia).
      unfold shr_fexp, shr. rewrite fexp_eq.
      destruct (Z.max (Zdigits2 M + E - 53) (-1074) - E) eqn:K; try lia.
      * cbn [shr_record_of_loc shr_m].
        destruct M as [| pm | pm]; try lia. reflexivity.
      * cbn [shr_record_of_loc shr_m].
        destruct M as [| pm | pm]; try lia. reflexivity.
    + assert (M = 2 ^ 53) as -> by lia.
      unfold shr_fexp, shr. rewrite fexp_eq.
      change (Zdigits2 (2 ^ 53)) with 54.
      replace (Z.max (54 + E - 53) (-1074) - E) with 1 by lia.
      cbn [shr_record_of_loc iter_pos].
      change (shr_m (shr_1 {| shr_m := 2 ^ 53; shr_r := false; shr_s := false |}))
        with (2 ^ 52).
      change (2 ^ 52) with (Zpos (Z.to_pos (2 ^ 52))) at 1.
      cbv iota beta. reflexivity.
Qed.

End ShiftAndRound.

(** ** The rational that is rounded *)

Section NearestInFormat.

Import Decimal Binary64 Rounding.
Local Open Scope Q_scope.

Lemma bpow_pos (e : Z) : 0 < bpow e.
Proof. apply Qpower_0_lt. reflexivity. Qed.

Lemma bpow_nonzero (e : Z) : ~ bpow e == 0.
Proof. intro H. pose proof (bpow_pos e) as P. rewrite H in P. discriminate P. Qed.

Lemma bpow_add (a b : Z) : bpow (a + b) == bpow a * bpow b.
Proof. apply Qpower_plus. discriminate. Qed.

Lemma bpow_Z (e : Z) : (0 <= e)%Z -> bpow e == inject_Z (2 ^ e).
Proof.
  intro H. unfold bpow. rewrite Zpower_Qpower by assumption. reflexivity.
Qed.

Lemma bpow_le (a b : Z) : (a <= b)%Z -> bpow a <= bpow b.
Proof. intro H. apply Qpower_le_compat_l; [assumption | discriminate]. Qed.

Lemma bpow_lt (a b : Z) : (a < b)%Z -> bpow a < bpow b.
Proof. intro H. apply Qpower_lt_compat_l; [assumption | reflexivity]. Qed.

Lemma bpow_lt_inv (a b : Z) : bpow a < bpow b -> (a < b)%Z.
Proof. intro H. apply Qpower_lt_compat_l_inv with 2; [assumption | reflexivity]. Qed.

Lemma bpow_le_inv (a b : Z) : bpow a <= bpow b -> (a <= b)%Z.
Proof. intro H. apply Qpower_le_compat_l_inv with 2; [assumption | reflexivity]. Qed.

Lemma bpow_sub (a b : Z) : bpow (a - b) == bpow a / bpow b.
Proof. apply Qpower_minus. discriminate. Qed.

(** The magnitude of a finite float. *)
Lemma to_Q_finite (s : bool) (m : positive) (e : Z) :
  to_Q (S754_finite s m e) ==
  if s then - (inject_Z (Zpos m) * bpow e) else inject_Z (Zpos m) * bpow e.
Proof.
  assert (K : (match e with
               | Zneg p => Zpos m # (2 ^ p)
               | _ => inject_Z (Zpos m * 2 ^ e)
               end) == inject_Z (Zpos m) * bpow e).
  { destruct e as [| p | p].
    - rewrite inject_Z_mult. reflexivity.
    - rewrite inject_Z_mult, (bpow_Z (Zpos p)) by lia. reflexivity.
    - change (Zneg p) with (- Zpos p)%Z. unfold bpow. rewrite Qpower_opp.
      fold (bpow (Zpos p)). rewrite bpow_Z by lia.
      rewrite (Qmake_Qdiv (Zpos m) (2 ^ p)), Pos2Z.inj_pow. reflexivity. }
  cbn [to_Q]. destruct s; rewrite K; reflexivity.
Qed.

Lemma inject_Z_pos (n : Z) : (0 < n)%Z -> 0 < inject_Z n.
Proof. intro H. change 0 with (inject_Z 0). rewrite <- Zlt_Qlt. assumption. Qed.

Lemma inject_Z_nonzero (n : Z) : (n <> 0)%Z -> ~ inject_Z n == 0.
Proof.
  intros H K. apply H. unfold Qeq in K. cbn in K. lia.
Qed.

Lemma rhe_div_half_even (N D e E : Z) :
  (0 < D)%Z -> (e <= E)%Z ->
  half_even (rhe_div N (2 ^ (E - e) * D))
    (inject_Z N / inject_Z D * bpow e / bpow E).
Proof.
  intros HD HE.
  assert (H2 : (0 < 2 ^ (E - e))%Z) by (apply Z.pow_pos_nonneg; lia).
  assert (HT : (0 < 2 ^ (E - e) * D)%Z) by nia.
  pose proof (rhe_div_nearest_even N HT) as Hn.
  destruct (2 ^ (E - e) * D)%Z as [| T | T] eqn:ET; try lia.
  apply nearest_even_half_even in Hn.
  eapply half_even_Qeq; [| exact Hn].
  rewrite (Qmake_Qdiv N T), <- ET, inject_Z_mult.
  replace E with (e + (E - e))%Z at 2 by lia.
  rewrite bpow_add, (bpow_Z (E - e)) by lia.
  field. repeat split;
    solve [apply bpow_nonzero | apply inject_Z_nonzero; lia].
Qed.

Lemma Z_le_of_Q_half (a b : Z) :
  inject_Z a <= inject_Z b + (1 # 2) -> (a <= b)%Z.
Proof. unfold Qle, Qplus, inject_Z. cbn. lia. Qed.

Lemma Z_ge_of_Q_half (a b : Z) :
  inject_Z b - (1 # 2) <= inject_Z a -> (b <= a)%Z.
Proof. unfold Qle, Qminus, Qplus, Qopp, inject_Z. cbn. lia. Qed.

Lemma half_even_bound (M : Z) (y : Q) :
  half_even M y -> Qabs (inject_Z M - y) <= 1 # 2.
Proof.
  intros [H | [H _]]; [apply Qlt_le_weak; assumption | rewrite H; apply Qle_refl].
Qed.

Lemma half_even_between (M : Z) (y : Q) :
  half_even M y -> y - (1 # 2) <= inject_Z M /\ inject_Z M <= y + (1 # 2).
Proof.
  intro H. apply half_even_bound in H.
  apply Qabs_Qle_condition in H. destruct H. split; lra.
Qed.

Lemma bpow_53 (E : Z) : bpow (E + 53) == inject_Z (2 ^ 53) * bpow E.
Proof. rewrite Z.add_comm, bpow_add, (bpow_Z 53) by lia. reflexivity. Qed.

Lemma bpow_52 (E : Z) : bpow (E + 52) == inject_Z (2 ^ 52) * bpow E.
Proof. rewrite Z.add_comm, bpow_add, (bpow_Z 52) by lia. reflexivity. Qed.

Lemma div_bpow_lt (x k : Q) (E : Z) : x < k * bpow E -> x / bpow E < k.
Proof. intro H. apply Qlt_shift_div_r; [apply bpow_pos | assumption]. Qed.

Lemma div_bpow_le (x k : Q) (E : Z) : k * bpow E <= x -> k <= x / bpow E.
Proof. intro H. apply Qle_shift_div_l; [apply bpow_pos | assumption]. Qed.

Lemma div_bpow_pos (x : Q) (E : Z) : 0 < x -> 0 < x / bpow E.
Proof.
  intro H. apply Qlt_shift_div_l; [apply bpow_pos |]. now rewrite Qmult_0_l.
Qed.

Lemma nearest_scaled_upper (x : Q) (M E : Z) :
  nearest_in_format x M E -> x < bpow (E + 53).
Proof.
  intros (_ & _ & [[-> H] | (_ & _ & H)]); assumption.
Qed.

Lemma nearest_facts (x : Q) (M E : Z) :
  nearest_in_format x M E ->
  (0 <= M <= 2 ^ 53)%Z /\ (-1074 <= E)%Z /\ ((-1074 < E)%Z -> (2 ^ 52 <= M)%Z).
Proof.
  intro H. pose proof (nearest_scaled_upper _ _ _ H) as Hu.
  destruct H as (Hx & Hh & Hc).
  apply half_even_between in Hh. destruct Hh as [Hl Hh].
  rewrite bpow_53 in Hu. apply div_bpow_lt in Hu.
  pose proof (div_bpow_pos x E Hx) as Hp.
  split; [split |].
  - apply Z_ge_of_Q_half. change (inject_Z 0) with 0. lra.
  - apply Z_le_of_Q_half. lra.
  - split; [destruct Hc as [[-> _] | [Hc _]]; lia |].
    intro HE. destruct Hc as [[-> _] | (_ & Hc & _)]; [lia |].
    rewrite bpow_52 in Hc. apply div_bpow_le in Hc.
    apply Z_ge_of_Q_half. lra.
Qed.

(** What [round_result] returns, case by case. *)
Lemma round_result_spec (sx : bool) (x : Q) (M E : Z) :
  nearest_in_format x M E ->
  match round_result sx M E with
  | S754_zero s => s = sx /\ M = 0%Z
  | S754_finite s m e =>
      s = sx /\ inject_Z (Zpos m) * bpow e == inject_Z M * bpow E /\
      bounded 53 1024 m e = true
  | S754_infinity s => s = sx /\ bpow 1023 <= x
  | S754_nan => False
  end.
Proof.
  intro H. destruct (nearest_facts _ _ _ H) as (HM & HE & HMl).
  destruct H as (Hx & Hh & Hc).
  assert (Hov : (971 <= E)%Z -> bpow 1023 <= x).
  { intro K. destruct Hc as [[-> _] | (_ & Hc & _)]; [lia |].
    eapply Qle_trans; [| exact Hc]. apply bpow_le. lia. }
  unfold round_result.
  destruct (Z.eqb_spec M 0) as [M0 | M0]; [auto |].
  destruct (Z.ltb_spec M (2 ^ 53)) as [Ml | Ml].
  - destruct (Z.leb_spec E 971) as [El | El].
    + split; [reflexivity |]. split.
      * rewrite Z2Pos.id by lia. reflexivity.
      * unfold bounded, canonical_mantissa.
        change (Zpos (digits2_pos (Z.to_pos M))) with (Zdigits2 (Zpos (Z.to_pos M))).
        rewrite Z2Pos.id by lia. rewrite fexp_eq.
        assert (Zdigits2 M <= 53)%Z by (apply Zdigits2_le; lia).
        apply andb_true_intro. split; [apply Z.eqb_eq | apply Z.leb_le; lia].
        destruct (Z.eq_dec E (-1074)) as [-> | NE]; [lia |].
        assert (53 <= Zdigits2 M)%Z by (apply (Zdigits2_ge M 52); lia).
        lia.
    + split; [reflexivity | apply Hov; lia].
  - destruct (Z.leb_spec (E + 1) 971) as [El | El].
    + split; [reflexivity |]. split.
      * assert (M = 2 ^ 53)%Z as -> by lia.
        replace (E + 1)%Z with (1 + E)%Z by lia.
        rewrite bpow_add. change (Zpos (Z.to_pos (2 ^ 52))) with (2 ^ 52)%Z.
        rewrite (bpow_Z 1) by lia. 
        change (2 ^ 1)%Z with 2%Z. change (2 ^ 53)%Z with (2 * 2 ^ 52)%Z.
        rewrite inject_Z_mult. ring.
      * unfold bounded, canonical_mantissa.
        change (Zpos (digits2_pos (Z.to_pos (2 ^ 52)))) with 53%Z.
        rewrite fexp_eq.
        apply andb_true_intro. split; [apply Z.eqb_eq | apply Z.leb_le]; lia.
    + split; [reflexivity | apply Hov; lia].
Qed.

(** [binary_round_aux] rounds the exact value to nearest in the format. *)
Lemma binary_round_aux_nearest (sx : bool) (m e D r : Z) :
  (0 <= m)%Z -> (0 < D)%Z -> (0 <= r < D)%Z -> (0 < m * D + r)%Z ->
  (e <= fexp 53 1024 (Zdigits2 m + e))%Z ->
  exists M E,
    binary_round_aux 53 1024 sx m e (loc_frac r D) = round_result sx M E /\
    nearest_in_format (inject_Z (m * D + r) / inject_Z D * bpow e) M E.
Proof.
  intros Hm HD Hr HN He.
  destruct (binary_round_aux_rhe sx m e D r Hm HD Hr He) as (Hbra & _ & _).
  set (E := fexp 53 1024 (Zdigits2 m + e)) in *.
  exists (rhe_div (m * D + r) (2 ^ (E - e) * D)), E.
  split; [exact Hbra |].
  set (N := (m * D + r)%Z) in *.
  pose proof (bpow_pos e) as Hbe.
  pose proof (inject_Z_pos _ HD) as HDq.
  pose proof (inject_Z_pos _ HN) as HNq.
  assert (Hq : 0 < inject_Z N / inject_Z D).
  { apply Qlt_shift_div_l; [assumption | now rewrite Qmult_0_l]. }
  split; [| split].
  - apply Qmult_lt_0_compat; assumption.
  - apply rhe_div_half_even; assumption.
  - pose proof (Zdigits2_bounds m Hm) as Hd.
    pose proof (Zdigits2_nonneg m) as Hd0.
    assert (HEq : E = Z.max (Zdigits2 m + e - 53) (-1074)) by reflexivity.
    assert (Hlo : inject_Z m <= inject_Z N / inject_Z D).
    { apply Qle_shift_div_l; [assumption |].
      rewrite <- inject_Z_mult, <- Zle_Qle. unfold N. lia. }
    assert (Hhi : inject_Z N / inject_Z D < inject_Z (2 ^ Zdigits2 m)).
    { apply Qlt_shift_div_r; [assumption |].
      rewrite <- inject_Z_mult, <- Zlt_Qlt. unfold N. nia. }
    assert (Hup : inject_Z N / inject_Z D * bpow e < bpow (Zdigits2 m + e)).
    { rewrite bpow_add, (bpow_Z (Zdigits2 m)) by assumption.
      apply Qmult_lt_compat_r; assumption. }
    destruct (Z.eq_dec E (-1074)) as [E1 | E1].
    + left. split; [assumption |].
      eapply Qlt_le_trans; [exact Hup | apply bpow_le; lia].
    + right. split; [lia |]. split.
      * replace (E + 52)%Z with ((Zdigits2 m - 1) + e)%Z by lia.
        rewrite bpow_add, (bpow_Z (Zdigits2 m - 1)) by lia.
        apply Qmult_le_compat_r; [| apply Qlt_le_weak; assumption].
        eapply Qle_trans; [| exact Hlo]. rewrite <- Zle_Qle. lia.
      * replace (E + 53)%Z with (Zdigits2 m + e)%Z by lia. exact Hup.
Qed.

End NearestInFormat.

(** ** The operations on mantissas *)

Section OperationsOnMantissas.

Import Decimal Binary64 Rounding.
Local Open Scope Z_scope.

Lemma new_location_frac (D r : Z) :
  0 < D -> 0 <= r < D -> new_location D r = loc_frac r D.
Proof.
  intros HD Hr. unfold new_location, new_location_even, new_location_odd, loc_frac.
  destruct (Z.even D) eqn:Ev; [reflexivity |].
  destruct (Z.eqb_spec r 0) as [R0 | R0]; [reflexivity |]. f_equal.
  assert (Hodd : Z.odd D = true) by (rewrite <- Z.negb_even, Ev; reflexivity).
  apply Z.odd_spec in Hodd. destruct Hodd as [k Hk].
  destruct (Z.compare_spec (2 * r + 1) D) as [C | C | C];
    symmetry; [apply Z.compare_lt_iff | apply Z.compare_lt_iff
              | apply Z.compare_gt_iff]; lia.
Qed.

Lemma fexp_mono (a b : Z) : a <= b -> fexp 53 1024 a <= fexp 53 1024 b.
Proof. rewrite !fexp_eq. lia. Qed.

Lemma div_eucl_div_mod (a b : Z) : Z.div_eucl a b = (a / b, a mod b).
Proof. unfold Z.div, Z.modulo. destruct (Z.div_eucl a b); reflexivity. Qed.

(** The integer division inside [SFdiv]: quotient, remainder, and an exponent
    that leaves at least 53 bits to the quotient. *)
Lemma SFdiv_core_spec (m1 m2 : positive) (e1 e2 : Z) :
  exists q r e',
    SFdiv_core_binary 53 1024 (Zpos m1) e1 (Zpos m2) e2 =
      (q, e', loc_frac r (Zpos m2)) /\
    0 <= q /\ 0 <= r < Zpos m2 /\ e' <= e1 - e2 /\
    q * Zpos m2 + r = Zpos m1 * 2 ^ (e1 - e2 - e') /\
    e' <= fexp 53 1024 (Zdigits2 q + e').
Proof.
  unfold SFdiv_core_binary.
  set (d1 := Zdigits2 (Zpos m1)). set (d2 := Zdigits2 (Zpos m2)).
  set (e' := Z.min (fexp 53 1024 (d1 + e1 - (d2 + e2))) (e1 - e2)).
  set (s := e1 - e2 - e').
  assert (Hs : 0 <= s) by (unfold s, e'; lia).
  set (m' := match s with
             | 0 => Zpos m1
             | Zpos _ => IntDef.Z.shiftl (Zpos m1) s
             | Zneg _ => 0
             end).
  assert (Hm' : m' = Zpos m1 * 2 ^ s).
  { unfold m'. destruct s as [| p | p]; [| | lia].
    - change (2 ^ 0) with 1. lia.
    - change (IntDef.Z.shiftl (Zpos m1) (Zpos p)) with (Z.shiftl (Zpos m1) (Zpos p)).
      apply Z.shiftl_mul_pow2. lia. }
  change (IntDef.Z.div_eucl m' (Zpos m2)) with (Z.div_eucl m' (Zpos m2)).
  rewrite div_eucl_div_mod.
  exists (m' / Zpos m2), (m' mod Zpos m2), e'.
  assert (H2s : 0 < 2 ^ s) by (apply Z.pow_pos_nonneg; lia).
  assert (Hm'0 : 0 < m') by nia.
  pose proof (Z.mod_pos_bound m' (Zpos m2) ltac:(lia)) as Hr.
  pose proof (Z.div_mod m' (Zpos m2) ltac:(lia)) as Hdm.
  assert (Hq0 : 0 <= m' / Zpos m2) by (apply Z.div_pos; lia).
  split.
  { f_equal. apply new_location_frac; lia. }
  split; [assumption |]. split; [assumption |].
  split; [unfold e'; lia |]. split; [fold s; lia |].
  set (q := m' / Zpos m2) in *.
  apply Z.le_trans with (fexp 53 1024 (d1 + e1 - (d2 + e2))); [unfold e'; lia |].
  apply fexp_mono.
  assert (Hdq : d1 + s - d2 <= Zdigits2 q).
  { pose proof (Zdigits2_nonneg q).
    destruct (Z_lt_le_dec (d1 + s - 1 - d2) 0) as [K | K]; [lia |].
    assert (2 ^ (d1 + s - 1 - d2) <= q); [| apply Zdigits2_ge in H0; lia].
    pose proof (Zdigits2_bounds (Zpos m1) ltac:(lia)) as [B1 _].
    pose proof (Zdigits2_bounds (Zpos m2) ltac:(lia)) as [_ B2].
    fold d1 in B1. fold d2 in B2.
    assert (Hd1 : 0 < d1) by (apply Zdigits2_pos; lia).
    assert (Hd2 : 0 < d2) by (apply Zdigits2_pos; lia).
    assert (P : 2 ^ (d1 - 1) * 2 ^ s = 2 ^ (d1 + s - 1 - d2) * 2 ^ d2).
    { rewrite <- !Z.pow_add_r by lia. f_equal. lia. }
    assert (0 < 2 ^ (d1 + s - 1 - d2)) by (apply Z.pow_pos_nonneg; lia).
    nia. }
  unfold s in Hdq. lia.
Qed.

Lemma nearest_in_format_Qeq (x y : Q) (M E : Z) :
  (x == y)%Q -> nearest_in_format x M E -> nearest_in_format y M E.
Proof.
  intros Exy (Hx & Hh & Hc).
  split; [rewrite <- Exy; assumption |]. split.
  - eapply half_even_Qeq; [| exact Hh]. rewrite Exy. reflexivity.
  - destruct Hc as [[HE H] | (HE & H1 & H2)]; [left | right];
      rewrite <- Exy; auto.
Qed.

(** [SFdiv] rounds the exact quotient, for all mantissas. *)
Lemma div_finite_spec (sx sy : bool) (mx my : positive) (ex ey : Z) :
  exists M E,
    div (S754_finite sx mx ex) (S754_finite sy my ey) =
      round_result (xorb sx sy) M E /\
    nearest_in_format
      ((inject_Z (Zpos mx) * bpow ex) / (inject_Z (Zpos my) * bpow ey))%Q M E.
Proof.
  destruct (SFdiv_core_spec mx my ex ey)
    as (q & r & e' & Hcore & Hq & Hr & He' & HN & Hfexp).
  assert (H2 : 0 < 2 ^ (ex - ey - e')) by (apply Z.pow_pos_nonneg; lia).
  destruct (binary_round_aux_nearest (xorb sx sy) q e' (Zpos my) r
              Hq ltac:(lia) Hr ltac:(nia) Hfexp) as (M & E & Hbra & Hn).
  exists M, E. split.
  - unfold div, SFdiv. fold prec emax. unfold prec, emax. rewrite Hcore. exact Hbra.
  - eapply nearest_in_format_Qeq; [| exact Hn].
    rewrite HN, inject_Z_mult, <- (bpow_Z (ex - ey - e')) by lia.
    replace ex with ((ex - ey - e') + e' + ey) at 2 by lia.
    rewrite !bpow_add. field. split.
    + apply bpow_nonzero.
    + apply inject_Z_nonzero. lia.
Qed.

Lemma bounded_facts (m : positive) (e : Z) :
  bounded 53 1024 m e = true ->
  -1074 <= e <= 971 /\ Zdigits2 (Zpos m) <= 53 /\
  (-1074 < e -> Zdigits2 (Zpos m) = 53).
Proof.
  unfold bounded, canonical_mantissa. intro H.
  apply andb_prop in H. destruct H as [H1 H2].
  apply Z.eqb_eq in H1. apply Z.leb_le in H2.
  rewrite fexp_eq in H1. cbn [Zdigits2].
  change (1024 - 53) with 971 in H2. lia.
Qed.

Lemma Zdigits2_mul (a b : Z) :
  0 < a -> 0 < b -> Zdigits2 a + Zdigits2 b - 1 <= Zdigits2 (a * b).
Proof.
  intros Ha Hb.
  pose proof (Zdigits2_bounds a ltac:(lia)) as [A _].
  pose proof (Zdigits2_bounds b ltac:(lia)) as [B _].
  pose proof (Zdigits2_pos a Ha). pose proof (Zdigits2_pos b Hb).
  assert (2 ^ (Zdigits2 a + Zdigits2 b - 2) <= a * b).
  { replace (Zdigits2 a + Zdigits2 b - 2)
      with ((Zdigits2 a - 1) + (Zdigits2 b - 1)) by lia.
    rewrite Z.pow_add_r by lia.
    assert (0 < 2 ^ (Zdigits2 a - 1)) by (apply Z.pow_pos_nonneg; lia).
    assert (0 < 2 ^ (Zdigits2 b - 1)) by (apply Z.pow_pos_nonneg; lia).
    nia. }
  apply Zdigits2_ge in H1; lia.
Qed.

(** [SFmul] rounds the exact product of two floats. *)
Lemma mul_finite_spec (sx sy : bool) (mx my : positive) (ex ey : Z) :
  bounded 53 1024 mx ex = true -> bounded 53 1024 my ey = true ->
  exists M E,
    mul (S754_finite sx mx ex) (S754_finite sy my ey) =
      round_result (xorb sx sy) M E /\
    nearest_in_format
      ((inject_Z (Zpos mx) * bpow ex) * (inject_Z (Zpos my) * bpow ey))%Q M E.
Proof.
  intros Bx By.
  destruct (bounded_facts mx ex Bx) as (Hex & Hdx & Hnx).
  destruct (bounded_facts my ey By) as (Hey & Hdy & Hny).
  pose proof (Zdigits2_mul (Zpos mx) (Zpos my) ltac:(lia) ltac:(lia)) as Hd.
  pose proof (Zdigits2_pos (Zpos mx) ltac:(lia)) as Hpx.
  pose proof (Zdigits2_pos (Zpos my) ltac:(lia)) as Hpy.
  assert (Hf : ex + ey <= fexp 53 1024 (Zdigits2 (Zpos mx * Zpos my) + (ex + ey))).
  { rewrite fexp_eq. lia. }
  destruct (binary_round_aux_nearest (xorb sx sy) (Zpos mx * Zpos my) (ex + ey)
              1 0 ltac:(lia) ltac:(lia) ltac:(lia) ltac:(lia) Hf)
    as (M & E & Hbra & Hn).
  exists M, E. split.
  - unfold mul, SFmul. rewrite Pos2Z.inj_mul. exact Hbra.
  - eapply nearest_in_format_Qeq; [| exact Hn].
    rewrite Z.mul_1_r, Z.add_0_r, inject_Z_mult, bpow_add. 
    change (inject_Z 1) with 1%Q. field.
Qed.

Lemma iter_xO_spec (m d : positive) :
  Zpos (Pos.iter xO m d) = Zpos m * 2 ^ Zpos d /\
  Zpos (digits2_pos (Pos.iter xO m d)) = Zpos (digits2_pos m) + Zpos d.
Proof.
  induction d as [| d [IH1 IH2]] using Pos.peano_ind.
  - cbn [Pos.iter digits2_pos]. split; lia.
  - rewrite Pos.iter_succ. cbn [digits2_pos].
    rewrite Pos2Z.inj_succ, Z.pow_succ_r by lia.
    rewrite Pos2Z.inj_xO, IH1, Pos2Z.inj_succ, IH2. split; lia.
Qed.

(** [binary_round] rounds [m * 2^e]. *)
Lemma binary_round_spec (sx : bool) (m : positive) (e : Z) :
  exists M E,
    binary_round 53 1024 sx m e = round_result sx M E /\
    nearest_in_format (inject_Z (Zpos m) * bpow e)%Q M E.
Proof.
  unfold binary_round, shl_align.
  set (E0 := fexp 53 1024 (Zpos (digits2_pos m) + e)).
  destruct (E0 - e) as [| p | p] eqn:K.
  - destruct (binary_round_aux_nearest sx (Zpos m) e 1 0
                ltac:(lia) ltac:(lia) ltac:(lia) ltac:(lia))
      as (M & E & Hbra & Hn).
    { change (Zdigits2 (Zpos m)) with (Zpos (digits2_pos m)). fold E0. lia. }
    exists M, E. split; [exact Hbra |].
    eapply nearest_in_format_Qeq; [| exact Hn].
    rewrite Z.mul_1_r, Z.add_0_r. change (inject_Z 1) with 1%Q. field.
  - destruct (binary_round_aux_nearest sx (Zpos m) e 1 0
                ltac:(lia) ltac:(lia) ltac:(lia) ltac:(lia))
      as (M & E & Hbra & Hn).
    { change (Zdigits2 (Zpos m)) with (Zpos (digits2_pos m)). fold E0. lia. }
    exists M, E. split; [exact Hbra |].
    eapply nearest_in_format_Qeq; [| exact Hn].
    rewrite Z.mul_1_r, Z.add_0_r. change (inject_Z 1) with 1%Q. field.
  - destruct (iter_xO_spec m p) as [I1 I2].
    destruct (binary_round_aux_nearest sx (Zpos (Pos.iter xO m p)) E0 1 0
                ltac:(lia) ltac:(lia) ltac:(lia) ltac:(lia))
      as (M & E & Hbra & Hn).
    { change (Zdigits2 (Zpos (Pos.iter xO m p)))
        with (Zpos (digits2_pos (Pos.iter xO m p))).
      rewrite I2. replace (Zpos (digits2_pos m) + Zpos p + E0)
        with (Zpos (digits2_pos m) + e) by lia. fold E0. lia. }
    exists M, E. split; [exact Hbra |].
    eapply nearest_in_format_Qeq; [| exact Hn].
    rewrite Z.mul_1_r, Z.add_0_r, I1, inject_Z_mult.
    rewrite <- (bpow_Z (Zpos p)) by lia.
    assert (Ke : (bpow e == bpow (Zpos p) * bpow E0)%Q)
      by (rewrite <- bpow_add; replace (Zpos p + E0) with e by lia; reflexivity).
    rewrite Ke.
    change (inject_Z 1) with 1%Q. field.
Qed.

Lemma binary_normalize_spec (z e : Z) :
  (z = 0 /\ binary_normalize 53 1024 z e false = S754_zero false) \/
  (z <> 0 /\
   exists M E,
     binary_normalize 53 1024 z e false = round_result (z <? 0) M E /\
     nearest_in_format (inject_Z (Z.abs z) * bpow e)%Q M E).
Proof.
  destruct z as [| p | p].
  - left. split; reflexivity.
  - right. split; [lia |]. apply (binary_round_spec false p e).
  - right. split; [lia |]. apply (binary_round_spec true p e).
Qed.

Lemma shl_align_fst (m : positive) (e ez : Z) :
  ez <= e -> Zpos (fst (shl_align m e ez)) = Zpos m * 2 ^ (e - ez).
Proof.
  intro H. unfold shl_align. destruct (ez - e) as [| p | p] eqn:K.
  - replace (e - ez) with 0 by lia. cbn [fst]. change (2 ^ 0) with 1. lia.
  - lia.
  - cbn [fst]. destruct (iter_xO_spec m p) as [I _]. rewrite I.
    f_equal. f_equal. lia.
Qed.

End OperationsOnMantissas.

(** ** Error and monotonicity of one rounding *)

Section OneRounding.

Import Decimal Binary64 Rounding.
Local Open Scope Q_scope.

Lemma rounded_Qeq (z z' : Q) (r : spec_float) :
  z == z' -> rounded z r -> rounded z' r.
Proof.
  intros Ez [[Z0 Hr] | (s & M & E & Hn & Hr & Hs)].
  - left. split; [rewrite <- Ez; assumption | assumption].
  - right. exists s, M, E. split; [| split; [assumption |]].
    + eapply nearest_in_format_Qeq; [| exact Hn]. rewrite Ez. reflexivity.
    + destruct s; rewrite <- Ez; assumption.
Qed.

Lemma to_Q_zero (r : spec_float) : is_zero r = true -> to_Q r = 0.
Proof. destruct r; try discriminate. reflexivity. Qed.

Lemma to_Q_round_result (s : bool) (x : Q) (M E : Z) :
  nearest_in_format x M E -> is_finite (round_result s M E) = true ->
  to_Q (round_result s M E) ==
  if s then - (inject_Z M * bpow E) else inject_Z M * bpow E.
Proof.
  intros Hn Hf. pose proof (round_result_spec s x M E Hn) as Hs.
  destruct (round_result s M E) as [s' | s' | | s' m e]; try discriminate Hf.
  - destruct Hs as [-> ->]. cbn [to_Q]. destruct s; ring.
  - destruct Hs as (-> & Hv & _). rewrite to_Q_finite.
    destruct s; rewrite Hv; reflexivity.
Qed.

Lemma rounded_value (z : Q) (r : spec_float) :
  rounded z r -> is_finite r = true ->
  (z == 0 /\ to_Q r == 0) \/
  (0 < z /\ exists M E, nearest_in_format z M E /\
                        to_Q r == inject_Z M * bpow E) \/
  (z < 0 /\ exists M E, nearest_in_format (- z) M E /\
                        to_Q r == - (inject_Z M * bpow E)).
Proof.
  intros [[Z0 Hr] | (s & M & E & Hn & Hr & Hs)] Hf.
  - left. split; [assumption |]. rewrite (to_Q_zero r Hr). reflexivity.
  - right. subst r. pose proof (to_Q_round_result s _ M E Hn Hf) as Hv.
    destruct s.
    + right. split; [assumption |]. exists M, E. split; [| assumption].
      eapply nearest_in_format_Qeq; [| exact Hn].
      apply Qabs_neg. lra.
    + left. split; [assumption |]. exists M, E. split; [| assumption].
      eapply nearest_in_format_Qeq; [| exact Hn].
      apply Qabs_pos. lra.
Qed.

Lemma scaled_error (M x : Q) (E : Z) :
  Qabs (M - x / bpow E) <= 1 # 2 ->
  Qabs (M * bpow E - x) <= (1 # 2) * bpow E.
Proof.
  intro H. pose proof (bpow_pos E) as HB.
  assert (K : M * bpow E - x == (M - x / bpow E) * bpow E).
  { field. apply bpow_nonzero. }
  rewrite K, Qabs_Qmult, (Qabs_pos (bpow E)) by lra.
  apply Qmult_le_compat_r; lra.
Qed.

Lemma nearest_error_half (x : Q) (M E : Z) :
  nearest_in_format x M E ->
  Qabs (inject_Z M * bpow E - x) <= (1 # 2) * bpow E.
Proof.
  intros (_ & Hh & _). apply scaled_error. apply half_even_bound. exact Hh.
Qed.

Lemma bpow_1074 : bpow (-1074) == 2 * bpow (-1075).
Proof.
  change (-1074)%Z with (1 + -1075)%Z. rewrite bpow_add. reflexivity.
Qed.

Lemma nearest_error (x : Q) (M E : Z) :
  nearest_in_format x M E ->
  Qabs (inject_Z M * bpow E - x) <= u53 * x + eta.
Proof.
  intro H. pose proof (nearest_error_half x M E H) as He.
  destruct H as (Hx & _ & [[-> _] | (_ & Hl & _)]).
  - eapply Qle_trans; [exact He |]. rewrite bpow_1074. unfold eta, u53.
    pose proof (bpow_pos (-1075)). lra.
  - eapply Qle_trans; [exact He |].
    rewrite bpow_52 in Hl. unfold eta, u53.
    pose proof (bpow_pos (-1075)). pose proof (bpow_pos E).
    change (inject_Z (2 ^ 52)) with (4503599627370496 # 1) in Hl. lra.
Qed.

Lemma bpow_1022 : bpow (-1022) == inject_Z (2 ^ 52) * bpow (-1074).
Proof.
  change (-1022)%Z with (52 + -1074)%Z. rewrite bpow_add, (bpow_Z 52) by lia.
  reflexivity.
Qed.

Lemma nearest_error_rel (x : Q) (M E : Z) :
  nearest_in_format x M E -> bpow (-1022) <= x ->
  Qabs (inject_Z M * bpow E - x) <= u53 * x.
Proof.
  intros H Hn. pose proof (nearest_error_half x M E H) as He.
  destruct H as (Hx & _ & [[-> _] | (_ & Hl & _)]).
  - eapply Qle_trans; [exact He |].
    rewrite bpow_1022 in Hn. unfold u53.
    change (inject_Z (2 ^ 52)) with (4503599627370496 # 1) in Hn. lra.
  - eapply Qle_trans; [exact He |].
    rewrite bpow_52 in Hl. unfold u53.
    change (inject_Z (2 ^ 52)) with (4503599627370496 # 1) in Hl. lra.
Qed.

(** One rounding: relative error [2^-53], or [2^-1075] in the subnormal range. *)
Lemma rounded_error (z : Q) (r : spec_float) :
  rounded z r -> is_finite r = true ->
  Qabs (to_Q r - z) <= u53 * Qabs z + eta.
Proof.
  intros Hr Hf.
  assert (He : 0 < eta) by apply bpow_pos.
  destruct (rounded_value z r Hr Hf)
    as [[Z0 V] | [(Hz & M & E & Hn & V) | (Hz & M & E & Hn & V)]].
  - rewrite V, Z0. change (Qabs (0 - 0)) with 0. change (Qabs 0) with 0.
    unfold u53. lra.
  - rewrite V, (Qabs_pos z) by lra. apply nearest_error. exact Hn.
  - rewrite V, (Qabs_neg z) by lra.
    pose proof (nearest_error _ M E Hn) as K.
    apply Qabs_Qle_condition in K. apply Qabs_Qle_condition. lra.
Qed.

(** In the normal range the error is relative. *)
Lemma rounded_error_rel (z : Q) (r : spec_float) :
  rounded z r -> is_finite r = true -> bpow (-1022) <= Qabs z ->
  Qabs (to_Q r - z) <= u53 * Qabs z.
Proof.
  intros Hr Hf Hb.
  pose proof (bpow_pos (-1022)) as Hp.
  destruct (rounded_value z r Hr Hf)
    as [[Z0 V] | [(Hz & M & E & Hn & V) | (Hz & M & E & Hn & V)]].
  - rewrite Z0 in Hb. change (Qabs 0) with 0 in Hb. lra.
  - rewrite (Qabs_pos z) in * by lra. rewrite V.
    apply nearest_error_rel; assumption.
  - rewrite (Qabs_neg z) in * by lra. rewrite V.
    pose proof (nearest_error_rel _ M E Hn Hb) as K.
    apply Qabs_Qle_condition in K. apply Qabs_Qle_condition. lra.
Qed.

Lemma even_succ_false (a b : Z) :
  Z.even a = true -> Z.even b = true -> (a = b + 1)%Z -> False.
Proof.
  intros Ha Hb E. subst a. rewrite Z.even_add in Ha. rewrite Hb in Ha.
  discriminate Ha.
Qed.

Lemma half_even_tie (M : Z) (y : Q) :
  half_even M y -> Qabs (inject_Z M - y) == 1 # 2 -> Z.even M = true.
Proof.
  intros [H | [_ H]] K; [rewrite K in H; discriminate H | assumption].
Qed.

(** Rounding to nearest is monotone. *)
Lemma nearest_mono (x1 x2 : Q) (M1 E1 M2 E2 : Z) :
  nearest_in_format x1 M1 E1 -> nearest_in_format x2 M2 E2 -> x1 <= x2 ->
  inject_Z M1 * bpow E1 <= inject_Z M2 * bpow E2.
Proof.
  intros H1 H2 Hx.
  destruct (nearest_facts x1 M1 E1 H1) as (HM1 & HE1 & HL1).
  destruct (nearest_facts x2 M2 E2 H2) as (HM2 & HE2 & HL2).
  pose proof (nearest_scaled_upper x1 M1 E1 H1) as U1.
  pose proof (nearest_scaled_upper x2 M2 E2 H2) as U2.
  pose proof (bpow_pos E1) as P1. pose proof (bpow_pos E2) as P2.
  assert (HE : (E1 <= E2)%Z).
  { destruct (Z_le_gt_dec E1 E2) as [| G]; [assumption | exfalso].
    destruct H1 as (_ & _ & [[-> _] | (_ & L1 & _)]); [lia |].
    assert (bpow (E1 + 52) < bpow (E2 + 53)) by lra.
    apply bpow_lt_inv in H. lia. }
  destruct (Z.eq_dec E1 E2) as [Eeq | Ene].
  - subst E2. apply Qmult_le_compat_r; [| lra].
    rewrite <- Zle_Qle.
    destruct H1 as (X1 & Hh1 & _). destruct H2 as (X2 & Hh2 & _).
    assert (Hy : x1 / bpow E1 <= x2 / bpow E1).
    { apply Qmult_le_compat_r; [assumption |].
      apply Qlt_le_weak, Qinv_lt_0_compat. assumption. }
    pose proof (half_even_between M1 _ Hh1) as [_ B1].
    pose proof (half_even_between M2 _ Hh2) as [B2 _].
    assert (HM : (M1 <= M2 + 1)%Z).
    { rewrite Zle_Qle, inject_Z_plus. change (inject_Z 1) with 1. lra. }
    destruct (Z_le_gt_dec M1 M2) as [| G]; [assumption | exfalso].
    assert (EM : (M1 = M2 + 1)%Z) by lia.
    assert (Q1 : inject_Z M1 == inject_Z M2 + 1).
    { rewrite EM, inject_Z_plus. reflexivity. }
    assert (T1 : Qabs (inject_Z M1 - x1 / bpow E1) == 1 # 2).
    { rewrite Qabs_pos by lra. lra. }
    assert (T2 : Qabs (inject_Z M2 - x2 / bpow E1) == 1 # 2).
    { rewrite Qabs_neg by lra. lra. }
    apply (even_succ_false M1 M2);
      [apply (half_even_tie M1 _ Hh1 T1) | apply (half_even_tie M2 _ Hh2 T2)
      | assumption].
  - assert (HE2' : (-1074 < E2)%Z) by lia.
    specialize (HL2 HE2').
    apply Qle_trans with (bpow (E1 + 53)).
    + rewrite bpow_53. apply Qmult_le_compat_r; [| lra].
      rewrite <- Zle_Qle. lia.
    + apply Qle_trans with (bpow (E2 + 52)); [apply bpow_le; lia |].
      rewrite bpow_52. apply Qmult_le_compat_r; [| lra].
      rewrite <- Zle_Qle. lia.
Qed.

Lemma nearest_value_nonneg (x : Q) (M E : Z) :
  nearest_in_format x M E -> 0 <= inject_Z M * bpow E.
Proof.
  intro H. destruct (nearest_facts x M E H) as (HM & _).
  apply Qmult_le_0_compat; [| apply Qlt_le_weak, bpow_pos].
  change 0 with (inject_Z 0). rewrite <- Zle_Qle. lia.
Qed.

Lemma rounded_mono (z1 z2 : Q) (r1 r2 : spec_float) :
  rounded z1 r1 -> rounded z2 r2 ->
  is_finite r1 = true -> is_finite r2 = true ->
  z1 <= z2 -> to_Q r1 <= to_Q r2.
Proof.
  intros R1 R2 F1 F2 Hz.
  destruct (rounded_value z1 r1 R1 F1)
    as [[Z1 V1] | [(Z1 & M1 & E1 & N1 & V1) | (Z1 & M1 & E1 & N1 & V1)]];
  destruct (rounded_value z2 r2 R2 F2)
    as [[Z2 V2] | [(Z2 & M2 & E2 & N2 & V2) | (Z2 & M2 & E2 & N2 & V2)]];
  rewrite V1, V2;
  try pose proof (nearest_value_nonneg _ _ _ N1);
  try pose proof (nearest_value_nonneg _ _ _ N2);
  try lra.
  - apply (nearest_mono z1 z2); assumption.
  - assert (K : inject_Z M2 * bpow E2 <= inject_Z M1 * bpow E1)
      by (apply (nearest_mono (- z2) (- z1)); [assumption | assumption | lra]).
    lra.
Qed.

Lemma round_result_valid (s : bool) (x : Q) (M E : Z) :
  nearest_in_format x M E -> valid_binary 53 1024 (round_result s M E) = true.
Proof.
  intro Hn. pose proof (round_result_spec s x M E Hn) as Hs.
  destruct (round_result s M E) as [s' | s' | | s' m e]; try reflexivity.
  destruct Hs as (_ & _ & Hb). exact Hb.
Qed.

Lemma rounded_valid (z : Q) (r : spec_float) :
  rounded z r -> valid_binary 53 1024 r = true.
Proof.
  intros [[_ Hr] | (s & M & E & Hn & -> & _)].
  - destruct r; try discriminate Hr. reflexivity.
  - apply (round_result_valid s _ M E Hn).
Qed.

Lemma rounded_is_finite (z : Q) (r : spec_float) :
  rounded z r -> Qabs z < bpow 1023 -> is_finite r = true.
Proof.
  intros [[_ Hr] | (s & M & E & Hn & -> & _)] Hb.
  - destruct r; try discriminate Hr. reflexivity.
  - pose proof (round_result_spec s _ M E Hn) as Hs.
    destruct (round_result s M E) as [s' | s' | | s' m e];
      try reflexivity; [| contradiction].
    destruct Hs as [_ Hs]. lra.
Qed.

Lemma rounded_not_zero (z : Q) (r : spec_float) :
  rounded z r -> bpow (-1074) <= Qabs z -> is_zero r = false.
Proof.
  intros [[Z0 _] | (s & M & E & Hn & -> & _)] Hb.
  - pose proof (bpow_pos (-1074)). rewrite Z0 in Hb.
    change (Qabs 0) with 0 in Hb. lra.
  - pose proof (round_result_spec s _ M E Hn) as Hs.
    destruct (round_result s M E) as [s' | s' | | s' m e]; try reflexivity.
    destruct Hs as [_ ->].
    destruct Hn as (_ & Hh & Hc).
    apply half_even_between in Hh. destruct Hh as [Hh _].
    change (inject_Z 0) with 0 in Hh.
    assert (1 <= Qabs z / bpow E); [| lra].
    apply div_bpow_le. rewrite Qmult_1_l.
    destruct Hc as [[-> _] | (_ & L & _)]; [assumption |].
    eapply Qle_trans; [| exact L]. apply bpow_le. lia.
Qed.

End OneRounding.

(** ** The operations of the program round once *)

Section RoundedOperations.

Import Decimal Binary64 Rounding.
Local Open Scope Q_scope.

Lemma finite_magnitude_pos (m : positive) (e : Z) :
  0 < inject_Z (Zpos m) * bpow e.
Proof.
  apply Qmult_lt_0_compat; [apply inject_Z_pos; lia | apply bpow_pos].
Qed.

Lemma Qabs_to_Q_finite (s : bool) (m : positive) (e : Z) :
  Qabs (to_Q (S754_finite s m e)) == inject_Z (Zpos m) * bpow e.
Proof.
  pose proof (finite_magnitude_pos m e) as P.
  rewrite to_Q_finite. destruct s.
  - rewrite Qabs_opp. apply Qabs_pos. lra.
  - apply Qabs_pos. lra.
Qed.

Lemma to_Q_sign (s : bool) (m : positive) (e : Z) :
  if s then to_Q (S754_finite s m e) < 0 else 0 < to_Q (S754_finite s m e).
Proof.
  pose proof (finite_magnitude_pos m e) as P.
  destruct s; rewrite to_Q_finite; lra.
Qed.

Lemma to_Q_pos (m : positive) (e : Z) :
  to_Q (S754_finite false m e) == inject_Z (Zpos m) * bpow e.
Proof. apply (to_Q_finite false). Qed.

Lemma to_Q_neg (m : positive) (e : Z) :
  to_Q (S754_finite true m e) == - (inject_Z (Zpos m) * bpow e).
Proof. apply (to_Q_finite true). Qed.

Lemma rounded_intro (z : Q) (s : bool) (M E : Z) (x : Q) :
  nearest_in_format x M E -> Qabs z == x ->
  (if s then z < 0 else 0 < z) ->
  rounded z (round_result s M E).
Proof.
  intros Hn Hx Hs. right. exists s, M, E. split; [| split; [reflexivity | assumption]].
  eapply nearest_in_format_Qeq; [| exact Hn]. rewrite Hx. reflexivity.
Qed.

(** The operations of the program on finite floats, each one rounding of the
    exact result. *)
Lemma div_rounded (x y : spec_float) :
  is_finite x = true -> is_finite y = true -> is_zero y = false ->
  rounded (to_Q x / to_Q y) (div x y).
Proof.
  destruct x as [sx | sx | | sx mx ex]; try discriminate;
    destruct y as [sy | sy | | sy my ey]; try discriminate; intros _ _ _.
  - left. split; [cbn [to_Q]; unfold Qdiv; ring | reflexivity].
  - destruct (div_finite_spec sx sy mx my ex ey) as (M & E & Hd & Hn).
    rewrite Hd.
    pose proof (finite_magnitude_pos mx ex) as Px.
    pose proof (finite_magnitude_pos my ey) as Py.
    set (a := inject_Z (Zpos mx) * bpow ex) in *.
    set (b := inject_Z (Zpos my) * bpow ey) in *.
    assert (Hab : 0 < a / b).
    { apply Qlt_shift_div_l; [assumption | lra]. }
    assert (Hb : ~ b == 0) by (intro K; rewrite K in Py; discriminate Py).
    apply (rounded_intro _ _ M E (a / b) Hn).
    + unfold Qdiv. rewrite Qabs_Qmult, Qabs_Qinv, !Qabs_to_Q_finite.
      reflexivity.
    + destruct sx, sy; cbn [xorb]; rewrite ?to_Q_pos, ?to_Q_neg; fold a b.
      * assert (K : - a / - b == a / b) by (field; assumption). lra.
      * assert (K : - a / b == - (a / b)) by (field; assumption). lra.
      * assert (K : a / - b == - (a / b)) by (field; assumption). lra.
      * assumption.
Qed.

Lemma mul_rounded (x y : spec_float) :
  is_float x = true -> is_float y = true ->
  is_finite x = true -> is_finite y = true ->
  rounded (to_Q x * to_Q y) (mul x y).
Proof.
  destruct x as [sx | sx | | sx mx ex]; try discriminate;
    destruct y as [sy | sy | | sy my ey]; try discriminate; intros Vx Vy _ _;
    try (left; split; [cbn [to_Q]; ring | reflexivity]).
  destruct (mul_finite_spec sx sy mx my ex ey Vx Vy) as (M & E & Hd & Hn).
  rewrite Hd.
  pose proof (finite_magnitude_pos mx ex) as Px.
  pose proof (finite_magnitude_pos my ey) as Py.
  set (a := inject_Z (Zpos mx) * bpow ex) in *.
  set (b := inject_Z (Zpos my) * bpow ey) in *.
  assert (Hab : 0 < a * b) by (apply Qmult_lt_0_compat; assumption).
  apply (rounded_intro _ _ M E (a * b) Hn).
  - rewrite Qabs_Qmult, !Qabs_to_Q_finite. reflexivity.
  - destruct sx, sy; cbn [xorb]; rewrite ?to_Q_pos, ?to_Q_neg; fold a b.
    + assert (K : - a * - b == a * b) by ring. lra.
    + assert (K : - a * b == - (a * b)) by ring. lra.
    + assert (K : a * - b == - (a * b)) by ring. lra.
    + assumption.
Qed.

(** A float is its own rounding. *)
Lemma float_rounded_self (r : spec_float) :
  is_float r = true -> is_finite r = true -> rounded (to_Q r) r.
Proof.
  destruct r as [s | s | | s m e]; try discriminate; intros V _.
  - left. split; reflexivity.
  - destruct (bounded_facts m e V) as (He & Hd & Hn).
    pose proof (Zdigits2_bounds (Zpos m) ltac:(lia)) as [Bl Bu].
    assert (Hm : (Zpos m < 2 ^ 53)%Z).
    { eapply Z.lt_le_trans; [exact Bu |]. apply Z.pow_le_mono_r; lia. }
    pose proof (bpow_pos e) as Pe.
    assert (Hrr : round_result s (Zpos m) e = S754_finite s m e).
    { unfold round_result. cbn [Z.eqb].
      destruct (Z.ltb_spec (Zpos m) (2 ^ 53)); [| lia].
      destruct (Z.leb_spec e 971); [| lia]. reflexivity. }
    rewrite <- Hrr at 2.
    apply (rounded_intro _ s (Zpos m) e (inject_Z (Zpos m) * bpow e)).
    + split; [apply finite_magnitude_pos |]. split.
      * eapply half_even_Qeq; [| apply half_even_exact].
        field. apply bpow_nonzero.
      * destruct (Z.eq_dec e (-1074)) as [-> | Ne].
        -- left. split; [reflexivity |].
           change (-1021)%Z with (-1074 + 53)%Z. rewrite bpow_53.
           apply Qmult_lt_compat_r; [assumption |]. rewrite <- Zlt_Qlt. lia.
        -- right. split; [lia |]. rewrite bpow_52, bpow_53.
           rewrite Hn in Bl by lia. split.
           ++ apply Qmult_le_compat_r; [| lra]. rewrite <- Zle_Qle.
              change (53 - 1)%Z with 52%Z in Bl. lia.
           ++ apply Qmult_lt_compat_r; [assumption |]. rewrite <- Zlt_Qlt. lia.
    + apply Qabs_to_Q_finite.
    + apply to_Q_sign.
Qed.

Lemma to_Q_aligned (s : bool) (m : positive) (e ez : Z) :
  (ez <= e)%Z ->
  to_Q (S754_finite s m e) ==
  inject_Z (cond_Zopp s (Zpos (fst (shl_align m e ez)))) * bpow ez.
Proof.
  intro H. rewrite (shl_align_fst m e ez H).
  assert (K : bpow e == inject_Z (2 ^ (e - ez)) * bpow ez).
  { rewrite <- bpow_Z by lia. rewrite <- bpow_add.
    replace (e - ez + ez)%Z with e by lia. reflexivity. }
  destruct s; cbn [cond_Zopp]; rewrite ?to_Q_pos, ?to_Q_neg;
    rewrite ?inject_Z_opp, inject_Z_mult, K; ring.
Qed.

Lemma binary_normalize_rounded (z e : Z) :
  rounded (inject_Z z * bpow e) (binary_normalize 53 1024 z e false).
Proof.
  pose proof (bpow_pos e) as Pe.
  destruct (binary_normalize_spec z e) as [[-> Hr] | (Hz & M & E & Hr & Hn)].
  - left. split; [ring | rewrite Hr; reflexivity].
  - rewrite Hr.
    apply (rounded_intro _ _ M E _ Hn).
    + rewrite Qabs_Qmult, (Qabs_pos (bpow e)) by lra.
      apply Qmult_comp; [| reflexivity].
      unfold Qabs, inject_Z. reflexivity.
    + destruct (Z.ltb_spec z 0) as [L | L].
      * assert (inject_Z z < 0) by (change 0 with (inject_Z 0); rewrite <- Zlt_Qlt; lia).
        assert (K : inject_Z z * bpow e == - ((- inject_Z z) * bpow e)) by ring.
        assert (0 < (- inject_Z z) * bpow e)
          by (apply Qmult_lt_0_compat; lra).
        lra.
      * apply Qmult_lt_0_compat; [| assumption].
        change 0 with (inject_Z 0); rewrite <- Zlt_Qlt; lia.
Qed.

Lemma add_rounded (x y : spec_float) :
  is_float x = true -> is_float y = true ->
  is_finite x = true -> is_finite y = true ->
  rounded (to_Q x + to_Q y) (add x y).
Proof.
  destruct x as [sx | sx | | sx mx ex]; try discriminate;
    destruct y as [sy | sy | | sy my ey]; try discriminate; intros Vx Vy _ _.
  - left. split; [reflexivity | destruct sx, sy; reflexivity].
  - eapply rounded_Qeq; [| apply (float_rounded_self _ Vy); reflexivity].
    cbn [to_Q]. ring.
  - eapply rounded_Qeq; [| apply (float_rounded_self _ Vx); reflexivity].
    cbn [to_Q]. ring.
  - unfold add, SFadd.
    eapply rounded_Qeq; [| apply binary_normalize_rounded].
    rewrite inject_Z_plus, Qmult_plus_distr_l.
    rewrite <- !to_Q_aligned by lia. reflexivity.
Qed.

Lemma sub_rounded (x y : spec_float) :
  is_float x = true -> is_float y = true ->
  is_finite x = true -> is_finite y = true ->
  rounded (to_Q x - to_Q y) (sub x y).
Proof.
  destruct x as [sx | sx | | sx mx ex]; try discriminate;
    destruct y as [sy | sy | | sy my ey]; try discriminate; intros Vx Vy _ _.
  - left. split; [reflexivity | destruct sx, sy; reflexivity].
  - change (sub (S754_zero sx) (S754_finite sy my ey))
      with (S754_finite (negb sy) my ey).
    eapply rounded_Qeq;
      [| apply (float_rounded_self (S754_finite (negb sy) my ey) Vy); reflexivity].
    destruct sy; cbn [negb]; rewrite ?to_Q_pos, ?to_Q_neg;
      change (to_Q (S754_zero sx)) with 0; ring.
  - eapply rounded_Qeq; [| apply (float_rounded_self _ Vx); reflexivity].
    cbn [to_Q]. ring.
  - unfold sub, SFsub.
    eapply rounded_Qeq; [| apply binary_normalize_rounded].
    unfold Z.sub. rewrite inject_Z_plus, inject_Z_opp, Qmult_plus_distr_l.
    rewrite <- !to_Q_aligned by lia.
    assert (K : forall a b, - a * b == - (a * b)) by (intros; ring).
    rewrite K, <- to_Q_aligned by lia. reflexivity.
Qed.

Lemma of_ratio_rounded (negative : bool) (n : Z) (d : positive) :
  (0 <= n)%Z ->
  rounded ((if negative then - inject_Z n else inject_Z n) / inject_Z (Zpos d))
    (of_ratio negative n d).
Proof.
  intro Hn. destruct n as [| p | p]; [| | lia].
  - left. split; [destruct negative; unfold Qdiv; ring | reflexivity].
  - unfold of_ratio.
    eapply rounded_Qeq; [| apply div_rounded; reflexivity].
    change (bpow 0) with 1.
    destruct negative; rewrite ?to_Q_pos, ?to_Q_neg; change (bpow 0) with 1;
      rewrite !Qmult_1_r; reflexivity.
Qed.

Lemma float_bound (r : spec_float) :
  is_float r = true -> Qabs (to_Q r) < bpow 1024.
Proof.
  destruct r as [s | s | | s m e]; intro V;
    try (change (Qabs (to_Q _)) with 0; apply bpow_pos).
  destruct (bounded_facts m e V) as (He & Hd & _).
  pose proof (Zdigits2_bounds (Zpos m) ltac:(lia)) as [_ Bu].
  assert (Hm : (Zpos m < 2 ^ 53)%Z).
  { eapply Z.lt_le_trans; [exact Bu |]. apply Z.pow_le_mono_r; lia. }
  rewrite Qabs_to_Q_finite.
  apply Qlt_le_trans with (bpow (e + 53)); [| apply bpow_le; lia].
  rewrite bpow_53. apply Qmult_lt_compat_r; [apply bpow_pos |].
  rewrite <- Zlt_Qlt. assumption.
Qed.

(** The comparison [abs(x) < y] of floats is the comparison of their values. *)
Lemma SFltb_abs_finite (x : spec_float) (my : positive) (ey : Z) :
  is_float x = true -> is_finite x = true ->
  bounded 53 1024 my ey = true ->
  Qabs (to_Q x) < to_Q (S754_finite false my ey) ->
  SFltb (SFabs x) (S754_finite false my ey) = true.
Proof.
  destruct x as [s | s | | s m e]; try discriminate; intros Vx _ Vy Hlt.
  - reflexivity.
  - rewrite Qabs_to_Q_finite, to_Q_pos in Hlt.
    destruct (bounded_facts m e Vx) as (He & Hd & Hn).
    destruct (bounded_facts my ey Vy) as (Hey & Hdy & Hny).
    pose proof (Zdigits2_bounds (Zpos m) ltac:(lia)) as [Bl Bu].
    pose proof (Zdigits2_bounds (Zpos my) ltac:(lia)) as [Bly Buy].
    assert (Hmy : (Zpos my < 2 ^ 53)%Z).
    { eapply Z.lt_le_trans; [exact Buy |]. apply Z.pow_le_mono_r; lia. }
    pose proof (bpow_pos e) as Pe. pose proof (bpow_pos ey) as Pey.
    unfold SFltb. cbn [SFabs SFcompare].
    change (IntDef.Z.compare e ey) with (Z.compare e ey).
    destruct (Z.compare_spec e ey) as [Ce | Ce | Ce].
    + subst ey.
      assert (Hm : (Zpos m < Zpos my)%Z).
      { rewrite Zlt_Qlt. apply (proj1 (Qmult_lt_r _ _ (bpow e) Pe)).
        exact Hlt. }
      change (PosDef.Pos.compare_cont Eq m my) with (Pos.compare m my).
      rewrite (proj2 (Pos.compare_lt_iff m my)) by lia. reflexivity.
    + reflexivity.
    + exfalso.
      assert (Hd53 : Zdigits2 (Zpos m) = 53%Z) by (apply Hn; lia).
      rewrite Hd53 in Bl. change (53 - 1)%Z with 52%Z in Bl.
      assert (K1 : bpow (ey + 53) <= inject_Z (Zpos m) * bpow e).
      { apply Qle_trans with (bpow (e + 52)); [apply bpow_le; lia |].
        rewrite bpow_52. apply Qmult_le_compat_r; [| lra].
        rewrite <- Zle_Qle. assumption. }
      assert (K2 : inject_Z (Zpos my) * bpow ey < bpow (ey + 53)).
      { rewrite bpow_53. apply Qmult_lt_compat_r; [assumption |].
        rewrite <- Zlt_Qlt. assumption. }
      lra.
Qed.

Lemma binary_normalize_is_float (z e : Z) :
  is_float (binary_normalize 53 1024 z e false) = true.
Proof. apply (rounded_valid _ _ (binary_normalize_rounded z e)). Qed.

Lemma div_is_float (x y : spec_float) : is_float (div x y) = true.
Proof.
  destruct x as [sx | sx | | sx mx ex], y as [sy | sy | | sy my ey];
    try reflexivity.
  destruct (div_finite_spec sx sy mx my ex ey) as (M & E & -> & Hn).
  apply (round_result_valid _ _ M E Hn).
Qed.

Lemma mul_is_float (x y : spec_float) :
  is_float x = true -> is_float y = true -> is_float (mul x y) = true.
Proof.
  destruct x as [sx | sx | | sx mx ex], y as [sy | sy | | sy my ey];
    try reflexivity; intros Vx Vy.
  destruct (mul_finite_spec sx sy mx my ex ey Vx Vy) as (M & E & -> & Hn).
  apply (round_result_valid _ _ M E Hn).
Qed.

Lemma add_is_float (x y : spec_float) :
  is_float x = true -> is_float y = true -> is_float (add x y) = true.
Proof.
  destruct x as [sx | sx | | sx mx ex], y as [sy | sy | | sy my ey];
    try reflexivity; intros Vx Vy; try assumption;
    try (destruct sx, sy; reflexivity).
  apply binary_normalize_is_float.
Qed.

(** [1 + y] is a float whatever [y] is. *)
Lemma add_one_is_float (y : spec_float) : is_float (add (of_int 1) y) = true.
Proof.
  destruct y as [sy | sy | | sy my ey]; try reflexivity.
  apply binary_normalize_is_float.
Qed.

Lemma sub_is_float (x y : spec_float) :
  is_float x = true -> is_float y = true -> is_float (sub x y) = true.
Proof.
  destruct x as [sx | sx | | sx mx ex], y as [sy | sy | | sy my ey];
    try reflexivity; intros Vx Vy; try assumption;
    try (destruct sx, sy; reflexivity).
  apply binary_normalize_is_float.
Qed.

Lemma mul_finite_inv (x y : spec_float) :
  is_finite (mul x y) = true -> is_finite x = true /\ is_finite y = true.
Proof.
  destruct x as [sx | sx | | sx mx ex], y as [sy | sy | | sy my ey];
    try discriminate; split; reflexivity.
Qed.

Lemma add_finite_inv (x y : spec_float) :
  is_finite (add x y) = true -> is_finite x = true /\ is_finite y = true.
Proof.
  destruct x as [sx | sx | | sx mx ex], y as [sy | sy | | sy my ey];
    try discriminate; try (split; reflexivity);
    destruct sx, sy; discriminate.
Qed.

Lemma div_finite_inv (x y : spec_float) :
  is_finite (div x y) = true -> is_finite y = true -> is_zero y = false ->
  is_finite x = true.
Proof.
  destruct x as [sx | sx | | sx mx ex], y as [sy | sy | | sy my ey];
    try discriminate; reflexivity.
Qed.

(** An error bound on a quotient, multiplied by the divisor. *)
Lemma scale_error (a b q k : Q) :
  ~ b == 0 ->
  Qabs (q - a / b) <= u53 * Qabs (a / b) + k ->
  Qabs (b * q - a) <= u53 * Qabs a + k * Qabs b.
Proof.
  intros Hb H.
  assert (K1 : b * q - a == b * (q - a / b)) by (field; assumption).
  assert (K2 : Qabs a == Qabs b * Qabs (a / b)).
  { rewrite <- Qabs_Qmult. apply Qabs_wd. field. assumption. }
  rewrite K1, Qabs_Qmult, K2.
  pose proof (Qabs_nonneg b) as Nb.
  assert (K3 : Qabs b * Qabs (q - a / b) <=
               Qabs b * (u53 * Qabs (a / b) + k)).
  { rewrite !(Qmult_comm (Qabs b)). apply Qmult_le_compat_r; assumption. }
  eapply Qle_trans; [exact K3 |]. 
  apply Qle_lteq. right. ring.
Qed.

Lemma eta_small : eta <= 1 # 1152921504606846976.
Proof.
  unfold eta. apply Qle_trans with (bpow (-60)); [apply bpow_le; lia |].
  apply Qle_refl.
Qed.

Lemma eta_pos : 0 < eta.
Proof. apply bpow_pos. Qed.

Lemma eta_bpow_1024 : eta * bpow 1024 == 1 # 2251799813685248.
Proof.
  unfold eta. rewrite <- bpow_add. reflexivity.
Qed.

Lemma bpow_1023_large : 1048576 <= bpow 1023.
Proof.
  apply Qle_trans with (bpow 20); [apply Qle_refl | apply bpow_le; lia].
Qed.

(** The residual of the parity check on the computed rate: three roundings of
    a payoff of at most 2^18 stay below 7e-11, under the tolerance 1e-10. *)
Lemma round_trip_residual (dp fp : spec_float) :
  is_float dp = true -> is_float fp = true ->
  is_finite dp = true -> is_finite fp = true -> is_zero fp = false ->
  Qabs (to_Q dp) <= 262144 ->
  is_finite (div dp fp) = true ->
  SFltb (SFabs (sub dp (mul fp (div dp fp)))) (lit 1 10) = true.
Proof.
  intros Vdp Vfp Fdp Ffp Zfp Hdp Ffr.
  set (fr := div dp fp) in *.
  pose proof (div_rounded dp fp Fdp Ffp Zfp) as R1. fold fr in R1.
  pose proof (rounded_valid _ _ R1) as Vfr.
  pose proof (mul_rounded fp fr Vfp Vfr Ffp Ffr) as R2.
  assert (Nfp : ~ to_Q fp == 0).
  { destruct fp as [s | s | | s m e]; try discriminate.
    pose proof (to_Q_sign s m e) as K. destruct s; lra. }
  pose proof (scale_error _ _ _ _ Nfp (rounded_error _ _ R1 Ffr)) as S1.
  pose proof (float_bound fp Vfp) as Bfp.
  pose proof eta_pos as Ep. pose proof eta_small as Es.
  pose proof eta_bpow_1024 as Eb. pose proof bpow_1023_large as Bl.
  pose proof (Qabs_nonneg (to_Q dp)) as Nd.
  pose proof (Qabs_nonneg (to_Q fp)) as Nf.
  assert (Hk : eta * Qabs (to_Q fp) <= 1 # 2251799813685248).
  { rewrite <- Eb. rewrite !(Qmult_comm eta).
    apply Qmult_le_compat_r; lra. }
  unfold u53 in *.
  assert (C1 : Qabs (to_Q fp * to_Q fr - to_Q dp) <= 3 # 100000000000).
  { eapply Qle_trans; [exact S1 |]. lra. }
  clear S1.
  assert (C2 : Qabs (to_Q fp * to_Q fr) <= 262145).
  { split_abs C1. split_abs Hdp. apply Qabs_Qle_condition. split; lra. }
  set (P := mul fp fr) in *.
  assert (FP : is_finite P = true).
  { apply (rounded_is_finite _ _ R2). lra. }
  pose proof (rounded_valid _ _ R2) as VP.
  pose proof (rounded_error _ _ R2 FP) as E2.
  assert (C3 : Qabs (to_Q P - to_Q fp * to_Q fr) <= 3 # 100000000000).
  { eapply Qle_trans; [exact E2 |]. unfold u53. lra. }
  clear E2.
  pose proof (sub_rounded dp P Vdp VP Fdp FP) as R3.
  assert (C4 : Qabs (to_Q dp - to_Q P) <= 6 # 100000000000).
  { split_abs C1. split_abs C3. apply Qabs_Qle_condition. split; lra. }
  set (res := sub dp P) in *.
  assert (Fres : is_finite res = true).
  { apply (rounded_is_finite _ _ R3). lra. }
  pose proof (rounded_valid _ _ R3) as Vres.
  pose proof (rounded_error _ _ R3 Fres) as E3.
  assert (C5 : Qabs (to_Q res - (to_Q dp - to_Q P)) <= 1 # 1000000000000000000).
  { eapply Qle_trans; [exact E3 |]. unfold u53. lra. }
  change (lit 1 10) with (S754_finite false 7737125245533627 (-86)).
  apply SFltb_abs_finite; [assumption | assumption | reflexivity |].
  apply Qle_lt_trans with (7 # 100000000000);
    [| vm_compute; reflexivity].
  split_abs C4. split_abs C5. apply Qabs_Qle_condition. split; lra.
Qed.

(** Rounding does not cross a power of two. *)
Lemma nearest_ge_bpow (x : Q) (M E k : Z) :
  nearest_in_format x M E -> (-1074 <= k)%Z -> bpow k <= x ->
  bpow k <= inject_Z M * bpow E.
Proof.
  intros H Hk Hx. destruct (nearest_facts x M E H) as (HM & HE & HL).
  pose proof (bpow_pos E) as PE.
  destruct (Z_le_gt_dec E k) as [L | G].
  - assert (Kb : bpow k == inject_Z (2 ^ (k - E)) * bpow E).
    { rewrite <- bpow_Z by lia. rewrite <- bpow_add.
      replace (k - E + E)%Z with k by lia. reflexivity. }
    rewrite Kb in *. apply Qmult_le_compat_r; [| lra].
    rewrite <- Zle_Qle. apply Z_ge_of_Q_half.
    destruct H as (_ & Hh & _). apply half_even_between in Hh.
    apply div_bpow_le in Hx. lra.
  - apply Qle_trans with (bpow (E + 52)); [apply bpow_le; lia |].
    rewrite bpow_52. apply Qmult_le_compat_r; [| lra].
    rewrite <- Zle_Qle. apply HL. lia.
Qed.

Lemma nearest_le_bpow (x : Q) (M E k : Z) :
  nearest_in_format x M E -> (-1074 <= k)%Z -> x <= bpow k ->
  inject_Z M * bpow E <= bpow k.
Proof.
  intros H Hk Hx. destruct (nearest_facts x M E H) as (HM & HE & HL).
  pose proof (bpow_pos E) as PE.
  destruct (Z_le_gt_dec E k) as [L | G].
  - assert (Kb : bpow k == inject_Z (2 ^ (k - E)) * bpow E).
    { rewrite <- bpow_Z by lia. rewrite <- bpow_add.
      replace (k - E + E)%Z with k by lia. reflexivity. }
    rewrite Kb in *. apply Qmult_le_compat_r; [| lra].
    rewrite <- Zle_Qle. apply Z_le_of_Q_half.
    destruct H as (_ & Hh & _). apply half_even_between in Hh.
    assert (x / bpow E <= inject_Z (2 ^ (k - E))).
    { apply Qle_shift_div_r; assumption. }
    lra.
  - exfalso. destruct H as (_ & _ & [[-> _] | (_ & Lo & _)]); [lia |].
    assert (bpow k < bpow (E + 52)) by (apply bpow_lt; lia). lra.
Qed.

Lemma rounded_abs (z : Q) (r : spec_float) :
  rounded z r -> is_finite r = true ->
  (z == 0 /\ to_Q r == 0) \/
  (exists M E, nearest_in_format (Qabs z) M E /\
               Qabs (to_Q r) == inject_Z M * bpow E).
Proof.
  intros R F.
  destruct (rounded_value z r R F)
    as [[Z0 V] | [(Hz & M & E & Hn & V) | (Hz & M & E & Hn & V)]].
  - left. split; assumption.
  - right. exists M, E. pose proof (nearest_value_nonneg _ _ _ Hn). split.
    + eapply nearest_in_format_Qeq; [| exact Hn]. symmetry. apply Qabs_pos. lra.
    + rewrite V. apply Qabs_pos. assumption.
  - right. exists M, E. pose proof (nearest_value_nonneg _ _ _ Hn). split.
    + eapply nearest_in_format_Qeq; [| exact Hn]. symmetry. apply Qabs_neg. lra.
    + rewrite V, Qabs_opp. apply Qabs_pos. assumption.
Qed.

Lemma rounded_abs_ge (z : Q) (r : spec_float) (k : Z) :
  rounded z r -> is_finite r = true -> (-1074 <= k)%Z ->
  bpow k <= Qabs z -> bpow k <= Qabs (to_Q r).
Proof.
  intros R F Hk Hz. pose proof (bpow_pos k) as Pk.
  destruct (rounded_abs z r R F) as [[Z0 _] | (M & E & Hn & V)].
  - rewrite Z0 in Hz. change (Qabs 0) with 0 in Hz. lra.
  - rewrite V. apply (nearest_ge_bpow _ M E k Hn Hk Hz).
Qed.

Lemma rounded_abs_le (z : Q) (r : spec_float) (k : Z) :
  rounded z r -> is_finite r = true -> (-1074 <= k)%Z ->
  Qabs z <= bpow k -> Qabs (to_Q r) <= bpow k.
Proof.
  intros R F Hk Hz. pose proof (bpow_pos k) as Pk.
  destruct (rounded_abs z r R F) as [[_ V] | (M & E & Hn & V)].
  - rewrite V. change (Qabs 0) with 0. lra.
  - rewrite V. apply (nearest_le_bpow _ M E k Hn Hk Hz).
Qed.

Lemma rounded_nonneg (z : Q) (r : spec_float) :
  rounded z r -> is_finite r = true -> 0 <= z -> 0 <= to_Q r.
Proof.
  intros R F Hz.
  destruct (rounded_value z r R F)
    as [[Z0 V] | [(Hz' & M & E & Hn & V) | (Hz' & M & E & Hn & V)]].
  - rewrite V. apply Qle_refl.
  - rewrite V. apply (nearest_value_nonneg _ _ _ Hn).
  - lra.
Qed.

Lemma is_zero_to_Q (r : spec_float) :
  is_finite r = true -> ~ to_Q r == 0 -> is_zero r = false.
Proof.
  destruct r; try discriminate; intros _ H; [| reflexivity].
  exfalso. apply H. reflexivity.
Qed.

Lemma to_Q_nonzero (r : spec_float) : 0 < Qabs (to_Q r) -> ~ to_Q r == 0.
Proof. intros H K. rewrite K in H. discriminate H. Qed.

Lemma Qinv_le_anti (p q : Q) : 0 < p -> p <= q -> / q <= / p.
Proof.
  intros Hp Hpq. assert (Hq : 0 < q) by lra.
  apply Qle_shift_inv_l; [assumption |].
  assert (E : / q * q == 1) by (field; lra).
  rewrite <- E. rewrite !(Qmult_comm (/ q)).
  apply Qmult_le_compat_r; [assumption |].
  apply Qlt_le_weak, Qinv_lt_0_compat. assumption.
Qed.

Lemma Qabs_inv_bounds (x : Q) (a b : Z) :
  bpow a <= Qabs x -> Qabs x <= bpow b ->
  bpow (- b) <= Qabs (1 / x) /\ Qabs (1 / x) <= bpow (- a).
Proof.
  intros Ha Hb. pose proof (bpow_pos a) as Pa. pose proof (bpow_pos b) as Pb.
  assert (Hx : 0 < Qabs x) by lra.
  assert (K : Qabs (1 / x) == / Qabs x).
  { unfold Qdiv. rewrite Qmult_1_l. apply Qabs_Qinv. }
  rewrite K. unfold bpow. rewrite !Qpower_opp. fold (bpow a) (bpow b).
  split; apply Qinv_le_anti; assumption.
Qed.

(** [x * q = y * w] with [q] at least [q0] and [w] at most [w0]. *)
Lemma product_quotient_bound (x y q w q0 w0 : Q) :
  0 <= x -> 0 <= y -> x * q == y * w -> 0 < q0 -> q0 <= q -> w <= w0 ->
  x * q0 <= y * w0.
Proof.
  intros Hx Hy E Hq0 Hq Hw.
  apply Qle_trans with (x * q).
  - rewrite !(Qmult_comm x). apply Qmult_le_compat_r; assumption.
  - rewrite E. rewrite !(Qmult_comm y). apply Qmult_le_compat_r; assumption.
Qed.

Lemma scale_abs (c x y k : Q) :
  Qabs (x - y) <= k * Qabs y -> Qabs (c * x - c * y) <= k * Qabs (c * y).
Proof.
  intro H.
  assert (K : c * x - c * y == c * (x - y)) by ring.
  rewrite K, !Qabs_Qmult.
  pose proof (Qabs_nonneg c).
  assert (Qabs c * Qabs (x - y) <= Qabs c * (k * Qabs y)).
  { rewrite !(Qmult_comm (Qabs c)). apply Qmult_le_compat_r; assumption. }
  eapply Qle_trans; [exact H1 |]. apply Qle_lteq. right. ring.
Qed.

Lemma to_Q_one : to_Q (of_int 1) == 1.
Proof. reflexivity. Qed.

Lemma rel_error_inv (x q : Q) :
  ~ x == 0 -> Qabs (q - 1 / x) <= u53 * Qabs (1 / x) ->
  Qabs (x * q - 1) <= u53.
Proof.
  intros Hx H.
  assert (H' : Qabs (q - 1 / x) <= u53 * Qabs (1 / x) + 0) by lra.
  pose proof (scale_error 1 x q 0 Hx H') as K.
  change (Qabs 1) with 1 in K. lra.
Qed.

(** Three roundings in the normal range: [1 / (1 * (1 / s))]. *)
Lemma double_reciprocal_close (s : spec_float) :
  bpow (-1022) <= Qabs (to_Q s) -> Qabs (to_Q s) <= bpow 1022 ->
  exists r,
    bind (truediv (of_int 1) s)
      (fun inverse_spot =>
         truediv (of_int 1) (mul (of_int 1) inverse_spot)) = Return r /\
    is_finite r = true /\
    Qabs (to_Q r - to_Q s) <= (1 # 2251799813685248) * Qabs (to_Q s).
Proof.
  intros Hlo Hhi.
  pose proof (bpow_pos (-1022)) as P1.
  assert (Ns : ~ to_Q s == 0) by (apply to_Q_nonzero; lra).
  assert (Fs : is_finite s = true).
  { destruct s; try reflexivity; exfalso; apply Ns; reflexivity. }
  pose proof (is_zero_to_Q s Fs Ns) as Zs.
  pose proof (bpow_lt 1022 1023 ltac:(lia)) as B23.
  (* 1 / s *)
  set (inv := div (of_int 1) s).
  pose proof (div_rounded (of_int 1) s eq_refl Fs Zs) as R1. fold inv in R1.
  assert (Ez1 : to_Q (of_int 1) / to_Q s == 1 / to_Q s)
    by (rewrite to_Q_one; reflexivity).
  apply (rounded_Qeq _ _ _ Ez1) in R1.
  destruct (Qabs_inv_bounds (to_Q s) (-1022) 1022 Hlo Hhi) as [L1 U1].
  change (- (1022))%Z with (-1022)%Z in L1. change (- -1022)%Z with 1022%Z in U1.
  assert (F1 : is_finite inv = true) by (apply (rounded_is_finite _ _ R1); lra).
  pose proof (rounded_error_rel _ _ R1 F1 L1) as E1.
  pose proof (rounded_abs_ge _ _ (-1022) R1 F1 ltac:(lia) L1) as La.
  pose proof (rounded_abs_le _ _ 1022 R1 F1 ltac:(lia) U1) as Ua.
  assert (Na : ~ to_Q inv == 0) by (apply to_Q_nonzero; lra).
  pose proof (rounded_valid _ _ R1) as V1.
  (* 1 * (1 / s) *)
  set (w := mul (of_int 1) inv).
  pose proof (mul_rounded (of_int 1) inv eq_refl V1 eq_refl F1) as R2.
  fold w in R2.
  assert (Ez2 : to_Q (of_int 1) * to_Q inv == to_Q inv)
    by (rewrite to_Q_one; ring).
  apply (rounded_Qeq _ _ _ Ez2) in R2.
  assert (F2 : is_finite w = true) by (apply (rounded_is_finite _ _ R2); lra).
  pose proof (rounded_error_rel _ _ R2 F2 La) as E2.
  pose proof (rounded_abs_ge _ _ (-1022) R2 F2 ltac:(lia) La) as Lb.
  pose proof (rounded_abs_le _ _ 1022 R2 F2 ltac:(lia) Ua) as Ub.
  assert (Nb : ~ to_Q w == 0) by (apply to_Q_nonzero; lra).
  pose proof (is_zero_to_Q w F2 Nb) as Zw.
  (* 1 / (1 * (1 / s)) *)
  set (r := div (of_int 1) w).
  pose proof (div_rounded (of_int 1) w eq_refl F2 Zw) as R3. fold r in R3.
  assert (Ez3 : to_Q (of_int 1) / to_Q w == 1 / to_Q w)
    by (rewrite to_Q_one; reflexivity).
  apply (rounded_Qeq _ _ _ Ez3) in R3.
  destruct (Qabs_inv_bounds (to_Q w) (-1022) 1022 Lb Ub) as [L3 U3].
  change (- (1022))%Z with (-1022)%Z in L3. change (- -1022)%Z with 1022%Z in U3.
  assert (F3 : is_finite r = true) by (apply (rounded_is_finite _ _ R3); lra).
  pose proof (rounded_error_rel _ _ R3 F3 L3) as E3.
  exists r. split; [| split; [exact F3 |]].
  { unfold truediv. rewrite Zs. cbn [bind]. fold inv. fold w. rewrite Zw.
    reflexivity. }
  (* the three relative errors *)
  set (sg := to_Q s) in *. set (a := to_Q inv) in *.
  set (b := to_Q w) in *. set (c := to_Q r) in *.
  pose proof (rel_error_inv sg a Ns E1) as Hp.
  pose proof (rel_error_inv b c Nb E3) as Ht.
  pose proof (scale_abs sg b a u53 E2) as Hq.
  unfold u53 in *.
  assert (Hpa : Qabs (sg * a) <= 1 + (1 # 9007199254740992)).
  { split_abs Hp. apply Qabs_Qle_condition. split; lra. }
  assert (Hq' : Qabs (sg * b - sg * a) <=
                (1 # 9007199254740992) * (1 + (1 # 9007199254740992))).
  { eapply Qle_trans; [exact Hq |]. lra. }
  clear Hq.
  assert (Hid : (c - sg) * (sg * b) == sg * (b * c - sg * b)) by ring.
  assert (Hx : Qabs (c - sg) * (sg * b) == Qabs sg * Qabs (b * c - sg * b)).
  { split_abs Hp. split_abs Hq'.
    rewrite <- (Qabs_pos (sg * b)) at 1 by lra.
    rewrite <- !Qabs_Qmult. apply Qabs_wd. exact Hid. }
  assert (Hw : Qabs (b * c - sg * b) <=
               (1 # 9007199254740992) * (3 + (1 # 9007199254740992))).
  { split_abs Hp. split_abs Hq'. split_abs Ht.
    apply Qabs_Qle_condition. split; lra. }
  assert (Hq0 : 1 - (1 # 9007199254740992) * (2 + (1 # 9007199254740992))
               <= sg * b).
  { split_abs Hp. split_abs Hq'. lra. }
  assert (Hq0p : 0 < 1 - (1 # 9007199254740992) * (2 + (1 # 9007199254740992)))
    by reflexivity.
  pose proof (product_quotient_bound _ _ _ _ _ _
                (Qabs_nonneg (c - sg)) (Qabs_nonneg sg) Hx Hq0p Hq0 Hw) as K.
  pose proof (Qabs_nonneg sg). lra.
Qed.

Lemma rounded_not_nan (z : Q) (r : spec_float) : rounded z r -> r <> S754_nan.
Proof.
  intros [[_ Hr] | (s & M & E & Hn & -> & _)] K.
  - rewrite K in Hr. discriminate Hr.
  - pose proof (round_result_spec s _ M E Hn) as Hs. rewrite K in Hs. exact Hs.
Qed.

(** [int / int] for a positive divisor. *)
Lemma int_div_of_ratio (t : Z) (k : positive) :
  int_div t (Zpos k) =
  match of_ratio (t <? 0)%Z (Z.abs t) k with
  | S754_infinity _ => Raise OverflowError
  | q => Return q
  end.
Proof. unfold int_div. rewrite xorb_false_r. reflexivity. Qed.

Lemma signed_abs (t : Z) :
  (if (t <? 0)%Z then - inject_Z (Z.abs t) else inject_Z (Z.abs t))
  == inject_Z t.
Proof.
  destruct (Z.ltb_spec t 0).
  - rewrite <- inject_Z_opp. replace (- Z.abs t)%Z with t by lia. reflexivity.
  - replace (Z.abs t) with t by lia. reflexivity.
Qed.

Lemma of_ratio_signed_rounded (t : Z) (k : positive) :
  rounded (inject_Z t / inject_Z (Zpos k)) (of_ratio (t <? 0)%Z (Z.abs t) k).
Proof.
  eapply rounded_Qeq; [| apply of_ratio_rounded; lia].
  rewrite signed_abs. reflexivity.
Qed.

Lemma int_div_rounded (t : Z) (k : positive) (ty : spec_float) :
  int_div t (Zpos k) = Return ty ->
  rounded (inject_Z t / inject_Z (Zpos k)) ty /\ is_finite ty = true.
Proof.
  rewrite int_div_of_ratio. intro H.
  pose proof (of_ratio_signed_rounded t k) as R.
  pose proof (rounded_not_nan _ _ R) as N.
  destruct (of_ratio (t <? 0)%Z (Z.abs t) k) as [s | s | | s m e];
    try discriminate H; try congruence; injection H as <-; split;
    try assumption; reflexivity.
Qed.

Lemma int_div_returns (t : Z) (k : positive) :
  is_finite (of_ratio (t <? 0)%Z (Z.abs t) k) = true ->
  int_div t (Zpos k) = Return (of_ratio (t <? 0)%Z (Z.abs t) k).
Proof.
  rewrite int_div_of_ratio.
  destruct (of_ratio (t <? 0)%Z (Z.abs t) k); try discriminate; reflexivity.
Qed.

(** The tenor in years, [t / k] for a day count [k] of at most 512 days, is
    the quotient up to one rounding. *)
Lemma tenor_years_close (t : Z) (k : positive) (ty : spec_float) :
  (Zpos k <= 512)%Z ->
  int_div t (Zpos k) = Return ty ->
  Qabs (to_Q ty - inject_Z t / inject_Z (Zpos k)) <=
  u53 * Qabs (inject_Z t / inject_Z (Zpos k)).
Proof.
  intros Hk H. destruct (int_div_rounded t k ty H) as [R F].
  destruct (Z.eq_dec t 0) as [-> | Ht].
  - assert (Z0 : inject_Z 0 / inject_Z (Zpos k) == 0) by (unfold Qdiv; ring).
    apply (rounded_Qeq _ _ _ Z0) in R.
    destruct (rounded_value _ _ R F) as [[_ V] | [[K _] | [K _]]];
      try (exfalso; lra).
    rewrite V, Z0. change (Qabs (0 - 0)) with 0. change (Qabs 0) with 0.
    unfold u53. lra.
  - apply (rounded_error_rel _ _ R F).
    apply Qle_trans with (bpow (-9)); [apply bpow_le; lia |].
    unfold Qdiv. rewrite Qabs_Qmult, Qabs_Qinv.
    assert (H1 : 1 <= Qabs (inject_Z t)).
    { unfold Qabs, inject_Z. cbn [Qnum Qden]. unfold Qle. cbn. lia. }
    assert (Hkq : 0 < inject_Z (Zpos k)) by (apply inject_Z_pos; lia).
    rewrite (Qabs_pos (inject_Z (Zpos k))) by lra.
    assert (H2 : bpow (-9) <= / inject_Z (Zpos k)).
    { change (bpow (-9)) with (/ 512).
      apply Qinv_le_anti; [assumption |].
      change 512 with (inject_Z 512). rewrite <- Zle_Qle. assumption. }
    pose proof (bpow_pos (-9)).
    apply Qle_trans with (1 * / inject_Z (Zpos k)); [lra |].
    apply Qmult_le_compat_r; [assumption | lra].
Qed.

(** [1 / (t / 360)], the factor of the annualised premium. *)
Lemma per_year_close (t : Z) :
  t <> 0%Z -> (Z.abs t <= 2 ^ 1000)%Z ->
  exists tenor_years per_year,
    int_div t 360 = Return tenor_years /\
    truediv (of_int 1) tenor_years = Return per_year /\
    is_finite per_year = true /\
    Qabs (to_Q per_year - 360 / inject_Z t) <=
    (3 # 9007199254740992) * Qabs (360 / inject_Z t).
Proof.
  intros Ht Hb.
  set (ty := of_ratio (t <? 0)%Z (Z.abs t) 360).
  pose proof (of_ratio_signed_rounded t 360) as R. fold ty in R.
  set (tau := inject_Z t / inject_Z 360) in *.
  assert (Nt : ~ inject_Z t == 0) by (apply inject_Z_nonzero; assumption).
  assert (A1 : 1 <= Qabs (inject_Z t)).
  { unfold Qabs, inject_Z. cbn [Qnum Qden]. unfold Qle. cbn. lia. }
  assert (A2 : Qabs (inject_Z t) <= bpow 1000).
  { rewrite (bpow_Z 1000) by lia.
    unfold Qabs, inject_Z. cbn [Qnum Qden]. unfold Qle. cbn [Qnum Qden].
    rewrite !Z.mul_1_r. exact Hb. }
  assert (At : Qabs tau == Qabs (inject_Z t) * (1 # 360)).
  { unfold tau, Qdiv. rewrite Qabs_Qmult. reflexivity. }
  pose proof (bpow_pos (-9)) as P9. pose proof (bpow_pos 1000) as P1000.
  assert (L : bpow (-9) <= Qabs tau).
  { rewrite At. change (bpow (-9)) with (1 # 512). lra. }
  assert (U : Qabs tau <= bpow 1000) by (rewrite At; lra).
  pose proof (bpow_lt 1000 1023 ltac:(lia)) as B1.
  pose proof (bpow_le (-1022) (-9) ltac:(lia)) as B2.
  pose proof (bpow_le (-1022) (-1000) ltac:(lia)) as B3.
  pose proof (bpow_lt 9 1023 ltac:(lia)) as B4.
  assert (F : is_finite ty = true) by (apply (rounded_is_finite _ _ R); lra).
  pose proof (rounded_error_rel _ _ R F ltac:(lra)) as E1.
  pose proof (rounded_abs_ge _ _ (-9) R F ltac:(lia) L) as La.
  pose proof (rounded_abs_le _ _ 1000 R F ltac:(lia) U) as Ua.
  assert (Na : ~ to_Q ty == 0) by (apply to_Q_nonzero; lra).
  pose proof (is_zero_to_Q ty F Na) as Zty.
  set (per := div (of_int 1) ty).
  pose proof (div_rounded (of_int 1) ty eq_refl F Zty) as R2. fold per in R2.
  assert (Ez : to_Q (of_int 1) / to_Q ty == 1 / to_Q ty)
    by (rewrite to_Q_one; reflexivity).
  apply (rounded_Qeq _ _ _ Ez) in R2.
  destruct (Qabs_inv_bounds (to_Q ty) (-9) 1000 La Ua) as [L2 U2].
  change (- (1000))%Z with (-1000)%Z in L2. change (- -9)%Z with 9%Z in U2.
  assert (F2 : is_finite per = true) by (apply (rounded_is_finite _ _ R2); lra).
  pose proof (rounded_error_rel _ _ R2 F2 ltac:(lra)) as E2.
  exists ty, per. split; [apply int_div_returns; exact F |].
  split; [unfold truediv; rewrite Zty; reflexivity |].
  split; [exact F2 |].
  set (a := to_Q ty) in *. set (c := to_Q per) in *.
  set (rho := 360 / inject_Z t).
  assert (Hrt : rho * tau == 1) by (unfold rho, tau; field; assumption).
  pose proof (rel_error_inv a c Na E2) as Ht'.
  assert (Hp : Qabs (rho * a - 1) <= u53).
  { pose proof (scale_abs rho a tau u53 E1) as K.
    rewrite Hrt in K. change (Qabs 1) with 1 in K. lra. }
  unfold u53 in *.
  assert (Hid : (c - rho) * (rho * a) == rho * (a * c - rho * a)) by ring.
  assert (Hx : Qabs (c - rho) * (rho * a) == Qabs rho * Qabs (a * c - rho * a)).
  { split_abs Hp.
    rewrite <- (Qabs_pos (rho * a)) at 1 by lra.
    rewrite <- !Qabs_Qmult. apply Qabs_wd. exact Hid. }
  assert (Hw : Qabs (a * c - rho * a) <= 2 # 9007199254740992).
  { split_abs Hp. split_abs Ht'. apply Qabs_Qle_condition. split; lra. }
  assert (Hq0 : 1 - (1 # 9007199254740992) <= rho * a).
  { split_abs Hp. lra. }
  assert (Hq0p : 0 < 1 - (1 # 9007199254740992)) by reflexivity.
  pose proof (product_quotient_bound _ _ _ _ _ _
                (Qabs_nonneg (c - rho)) (Qabs_nonneg rho) Hx Hq0p Hq0 Hw) as K.
  pose proof (Qabs_nonneg rho). pose proof (Qabs_nonneg (c - rho)). lra.
Qed.

End RoundedOperations.

(** * The engine and the interpreter up to rounding *)

Section UpToRounding.

Import Decimal Binary64 Rounding.
Local Open Scope Q_scope.

(** ** The engine, read through its two payoffs *)

(** Both functions of the engine compute the two payoffs first, with the
    same expressions, in every float arithmetic. *)
Section PayoffsOfTheEngine.

Context {F : Type} `{PyFloat F}.
Local Open Scope py_scope.
Local Open Scope pyfloat_scope.

Lemma calculate_forward_rate_by_payoffs (d f s : F) (t : Z) :
  calculate_forward_rate d f t s =
  (dp <- domestic_payoff d t ;;
   fp <- foreign_payoff_in_foreign_currency f t s ;;
   float_truediv dp fp).
Proof.
  unfold calculate_forward_rate, domestic_payoff,
    foreign_payoff_in_foreign_currency.
  destruct (int_truediv t 365); cbn [bind]; [| reflexivity].
  destruct (float_truediv (float_of_int 1) s); reflexivity.
Qed.

Lemma does_cip_equality_hold_by_payoffs (fr d f s : F) (t : Z) :
  does_cip_equality_hold fr d f t s =
  (dp <- domestic_payoff d t ;;
   fp <- foreign_payoff_in_foreign_currency f t s ;;
   Return (float_lt (float_abs (dp [-] fp [*] fr)) (float_lit 1 10))).
Proof.
  unfold does_cip_equality_hold, domestic_payoff,
    foreign_payoff_in_foreign_currency.
  destruct (int_truediv t 365); cbn [bind]; [| reflexivity].
  destruct (float_truediv (float_of_int 1) s); reflexivity.
Qed.

End PayoffsOfTheEngine.

Section EnginePayoffs.

Variables (d f s : spec_float) (t : Z).

Lemma domestic_payoff_Return (dp : spec_float) :
  domestic_payoff d t = Return dp ->
  exists ty, int_div t 365 = Return ty /\ dp = add (of_int 1) (mul d ty).
Proof.
  unfold domestic_payoff.
  cbn [int_truediv float_add float_mul float_of_int binary64].
  destruct (int_div t 365) as [ty | e]; [| discriminate].
  cbn [bind]. intro E. injection E as <-. exists ty. split; reflexivity.
Qed.

Lemma foreign_payoff_Return (fp : spec_float) :
  foreign_payoff_in_foreign_currency f t s = Return fp ->
  exists ty,
    int_div t 365 = Return ty /\ is_zero s = false /\
    fp = mul (add (of_int 1) (mul f ty)) (div (of_int 1) s).
Proof.
  unfold foreign_payoff_in_foreign_currency.
  cbn [int_truediv float_truediv float_add float_mul float_of_int binary64].
  destruct (int_div t 365) as [ty | e]; [| discriminate].
  cbn [bind]. unfold truediv.
  destruct (is_zero s); [discriminate |].
  cbn [bind]. intro E. injection E as <-. exists ty. repeat split.
Qed.

Lemma calculate_forward_rate_Return (r : spec_float) :
  calculate_forward_rate d f t s = Return r ->
  exists ty,
    int_div t 365 = Return ty /\ is_zero s = false /\
    is_zero (mul (add (of_int 1) (mul f ty)) (div (of_int 1) s)) = false /\
    r = div (add (of_int 1) (mul d ty))
            (mul (add (of_int 1) (mul f ty)) (div (of_int 1) s)).
Proof.
  unfold calculate_forward_rate.
  cbn [int_truediv float_truediv float_add float_mul float_of_int binary64].
  destruct (int_div t 365) as [ty | e]; [| discriminate].
  cbn [bind]. unfold truediv at 1.
  destruct (is_zero s); [discriminate |].
  cbn [bind]. unfold truediv.
  destruct (is_zero (mul (add (of_int 1) (mul f ty)) (div (of_int 1) s)))
    eqn:Zfp; [discriminate |].
  intro E. injection E as <-. exists ty. repeat split. exact Zfp.
Qed.

End EnginePayoffs.

(** ** Monotone operations *)

Lemma mul_mono_l (x1 x2 c : spec_float) :
  is_float x1 = true -> is_float x2 = true -> is_float c = true ->
  is_finite (mul x1 c) = true -> is_finite (mul x2 c) = true ->
  to_Q x1 <= to_Q x2 -> 0 <= to_Q c ->
  to_Q (mul x1 c) <= to_Q (mul x2 c).
Proof.
  intros V1 V2 Vc F1 F2 Hx Hc.
  destruct (mul_finite_inv _ _ F1) as [Fx1 Fc].
  destruct (mul_finite_inv _ _ F2) as [Fx2 _].
  apply (rounded_mono (to_Q x1 * to_Q c) (to_Q x2 * to_Q c));
    try assumption; try (apply mul_rounded; assumption).
  apply Qmult_le_compat_r; assumption.
Qed.

Lemma add_one_mono (a1 a2 : spec_float) :
  is_float a1 = true -> is_float a2 = true ->
  is_finite (add (of_int 1) a1) = true ->
  is_finite (add (of_int 1) a2) = true ->
  to_Q a1 <= to_Q a2 ->
  to_Q (add (of_int 1) a1) <= to_Q (add (of_int 1) a2).
Proof.
  intros V1 V2 F1 F2 Ha.
  destruct (add_finite_inv _ _ F1) as [_ Fa1].
  destruct (add_finite_inv _ _ F2) as [_ Fa2].
  apply (rounded_mono (to_Q (of_int 1) + to_Q a1) (to_Q (of_int 1) + to_Q a2));
    try assumption; try (apply add_rounded; (assumption || reflexivity)).
  lra.
Qed.

Lemma div_mono_num (x1 x2 y : spec_float) :
  is_finite x1 = true -> is_finite x2 = true ->
  is_finite y = true -> 0 < to_Q y ->
  is_finite (div x1 y) = true -> is_finite (div x2 y) = true ->
  to_Q x1 <= to_Q x2 ->
  to_Q (div x1 y) <= to_Q (div x2 y).
Proof.
  intros F1 F2 Fy Hy Fr1 Fr2 Hx.
  assert (Zy : is_zero y = false) by (apply is_zero_to_Q; [assumption | lra]).
  apply (rounded_mono (to_Q x1 / to_Q y) (to_Q x2 / to_Q y));
    try assumption; try (apply div_rounded; assumption).
  apply Qmult_le_compat_r; [assumption |].
  apply Qlt_le_weak, Qinv_lt_0_compat. assumption.
Qed.

Lemma div_anti_den (x y1 y2 : spec_float) :
  is_finite x = true -> 0 <= to_Q x ->
  is_finite y1 = true -> is_finite y2 = true ->
  0 < to_Q y1 -> to_Q y1 <= to_Q y2 ->
  is_finite (div x y1) = true -> is_finite (div x y2) = true ->
  to_Q (div x y2) <= to_Q (div x y1).
Proof.
  intros Fx Hx F1 F2 H1 H12 Fr1 Fr2.
  assert (Z1 : is_zero y1 = false) by (apply is_zero_to_Q; [assumption | lra]).
  assert (Z2 : is_zero y2 = false) by (apply is_zero_to_Q; [assumption | lra]).
  apply (rounded_mono (to_Q x / to_Q y2) (to_Q x / to_Q y1));
    try assumption; try (apply div_rounded; assumption).
  unfold Qdiv. rewrite !(Qmult_comm (to_Q x)).
  apply Qmult_le_compat_r; [| assumption].
  apply Qinv_le_anti; assumption.
Qed.

(** The tenor in years of a positive number of days is a non-negative
    float. *)
Lemma tenor_years_nonneg (t : Z) (ty : spec_float) :
  (0 < t)%Z -> int_div t 365 = Return ty ->
  is_float ty = true /\ is_finite ty = true /\ 0 <= to_Q ty.
Proof.
  intros Ht E. destruct (int_div_rounded t 365 ty E) as [R Fy].
  split; [apply (rounded_valid _ _ R) |]. split; [assumption |].
  apply (rounded_nonneg _ _ R Fy).
  apply Qle_shift_div_l; [reflexivity |]. rewrite Qmult_0_l.
  change 0 with (inject_Z 0). rewrite <- Zle_Qle. lia.
Qed.

(** ** The claims that hold up to rounding *)

(** C1. On binary64 the round trip holds for payoffs of ordinary size: when
    the domestic payoff [1 + d * days / 365] is finite and at most 262144
    (2^18) in absolute value, the foreign payoff is finite, and
    [calculate_forward_rate] returns a finite forward rate, then
    [does_cip_equality_hold] on that rate returns [True].  The residual is
    the payoff rounded three times, at most 7e-11, under the tolerance
    1e-10. *)
Theorem cip_round_trip_bounded_payoff (d f s fr dp fp : spec_float) (t : Z) :
  domestic_payoff d t = Return dp ->
  foreign_payoff_in_foreign_currency f t s = Return fp ->
  is_finite dp = true -> Qabs (to_Q dp) <= 262144 ->
  is_finite fp = true ->
  calculate_forward_rate d f t s = Return fr ->
  is_finite fr = true ->
  does_cip_equality_hold fr d f t s = Return true.
Proof.
  intros Edp Efp Fdp Hdp Ffp Efr Ffr.
  rewrite calculate_forward_rate_by_payoffs, Edp, Efp in Efr.
  rewrite does_cip_equality_hold_by_payoffs, Edp, Efp.
  cbn [bind float_truediv float_lt float_abs float_sub float_mul float_lit
       binary64] in *.
  unfold truediv in Efr.
  destruct (is_zero fp) eqn:Zfp; [discriminate Efr |].
  injection Efr as <-. f_equal.
  destruct (domestic_payoff_Return d t dp Edp) as (ty & _ & Vdp).
  destruct (foreign_payoff_Return f s t fp Efp) as (ty' & _ & _ & Vfp).
  apply round_trip_residual; try assumption.
  - rewrite Vdp. apply add_one_is_float.
  - rewrite Vfp. apply mul_is_float; [apply add_one_is_float | apply div_is_float].
Qed.

Lemma cip_round_trip_bounded_payoff_at_one_year :
  does_cip_equality_hold (S754_finite false 4636058439940217 (-52))
    Inputs.rate_5_percent Inputs.rate_2_percent 365 Inputs.spot_1
  = Return true.
Proof.
  apply (cip_round_trip_bounded_payoff
           Inputs.rate_5_percent Inputs.rate_2_percent Inputs.spot_1
           (S754_finite false 4636058439940217 (-52))
           (S754_finite false 4728779608739021 (-52))
           (S754_finite false 4593671619917906 (-52)) 365);
    vm_compute; (reflexivity || discriminate).
Defined.

(** C2. With no day to maturity, finite rates and a spot rate [s] in the
    normal range, [2^-1022 <= |s| <= 2^1022], [calculate_forward_rate]
    returns the float [1 / (1 * (1 / s))], every operation rounded: a finite
    float within [2^-51 * |s|] of the spot rate, not always the spot rate
    itself. *)
Theorem zero_tenor_returns_spot_up_to_rounding (d f s : spec_float) :
  is_finite d = true -> is_finite f = true ->
  bpow (-1022) <= Qabs (to_Q s) -> Qabs (to_Q s) <= bpow 1022 ->
  exists r,
    calculate_forward_rate d f 0 s = Return r /\
    r = div (of_int 1) (mul (of_int 1) (div (of_int 1) s)) /\
    is_finite r = true /\
    Qabs (to_Q r - to_Q s) <= (1 # 2251799813685248) * Qabs (to_Q s).
Proof.
  intros Fd Ff Hlo Hhi.
  destruct (double_reciprocal_close s Hlo Hhi) as (r & Er & Fr & Hr).
  exists r. rewrite (@zero_tenor_is_double_reciprocal d f s Fd Ff).
  split; [exact Er |]. split; [| split; assumption].
  unfold truediv in Er.
  destruct (is_zero s); [discriminate Er |]. cbn [bind] in Er.
  destruct (is_zero (mul (of_int 1) (div (of_int 1) s))); [discriminate Er |].
  injection Er as <-. reflexivity.
Qed.

Lemma zero_tenor_returns_spot_up_to_rounding_at_49 :
  exists r,
    calculate_forward_rate Inputs.rate_5_percent Inputs.rate_2_percent 0
      Inputs.spot_49 = Return r /\
    r = div (of_int 1) (mul (of_int 1) (div (of_int 1) Inputs.spot_49)) /\
    is_finite r = true /\
    Qabs (to_Q r - to_Q Inputs.spot_49) <=
      (1 # 2251799813685248) * Qabs (to_Q Inputs.spot_49).
Proof.
  apply (zero_tenor_returns_spot_up_to_rounding
           Inputs.rate_5_percent Inputs.rate_2_percent Inputs.spot_49);
    vm_compute; (reflexivity || discriminate).
Defined.

(** C5. On binary64 and for more than zero days to maturity, between floats
    of CPython that are finite and give finite forward rates:
    - with a finite, positive foreign payoff (in foreign currency), a higher
      domestic rate gives a forward rate that is at least as high;
    - with a positive spot rate, a finite domestic payoff that is not
      negative and finite, positive foreign payoffs, a higher foreign rate
      gives a forward rate that is at most as high.
    Monotone and not strictly so: neighbouring rates can give the same
    forward rate. *)
Theorem forward_rate_monotone_on_floats (t : Z) (s : spec_float) :
  (0 < t)%Z ->
  (forall d1 d2 f fp r1 r2 : spec_float,
     is_float d1 = true -> is_float d2 = true ->
     is_finite d1 = true -> is_finite d2 = true -> to_Q d1 <= to_Q d2 ->
     foreign_payoff_in_foreign_currency f t s = Return fp ->
     is_finite fp = true -> 0 < to_Q fp ->
     calculate_forward_rate d1 f t s = Return r1 -> is_finite r1 = true ->
     calculate_forward_rate d2 f t s = Return r2 -> is_finite r2 = true ->
     to_Q r1 <= to_Q r2) /\
  (forall d f1 f2 dp fp1 fp2 r1 r2 : spec_float,
     is_float f1 = true -> is_float f2 = true ->
     is_finite f1 = true -> is_finite f2 = true -> to_Q f1 <= to_Q f2 ->
     0 < to_Q s ->
     domestic_payoff d t = Return dp -> is_finite dp = true -> 0 <= to_Q dp ->
     foreign_payoff_in_foreign_currency f1 t s = Return fp1 ->
     is_finite fp1 = true -> 0 < to_Q fp1 ->
     foreign_payoff_in_foreign_currency f2 t s = Return fp2 ->
     is_finite fp2 = true ->
     calculate_forward_rate d f1 t s = Return r1 -> is_finite r1 = true ->
     calculate_forward_rate d f2 t s = Return r2 -> is_finite r2 = true ->
     to_Q r2 <= to_Q r1).
Proof.
  intro Ht. split.
  - intros d1 d2 f fp r1 r2 V1 V2 _ _ Hd Efp Ffp Hfp E1 F1 E2 F2.
    destruct (foreign_payoff_Return f s t fp Efp) as (ty & Ety & Zs & Efp').
    destruct (calculate_forward_rate_Return d1 f s t r1 E1)
      as (ty1 & Ety1 & _ & _ & Er1).
    destruct (calculate_forward_rate_Return d2 f s t r2 E2)
      as (ty2 & Ety2 & _ & _ & Er2).
    rewrite Ety in Ety1, Ety2. injection Ety1 as <-. injection Ety2 as <-.
    rewrite <- Efp' in Er1, Er2. subst r1 r2.
    destruct (tenor_years_nonneg t ty Ht Ety) as (Vty & Fty & Hty).
    assert (Zfp : is_zero fp = false)
      by (apply is_zero_to_Q; [assumption | lra]).
    pose proof (div_finite_inv _ _ F1 Ffp Zfp) as Fdp1.
    pose proof (div_finite_inv _ _ F2 Ffp Zfp) as Fdp2.
    destruct (add_finite_inv _ _ Fdp1) as [_ Fa1].
    destruct (add_finite_inv _ _ Fdp2) as [_ Fa2].
    apply div_mono_num; try assumption.
    apply add_one_mono; try assumption;
      try (apply mul_is_float; assumption).
    apply mul_mono_l; assumption.
  - intros d f1 f2 dp fp1 fp2 r1 r2 V1 V2 _ _ Hf Hs Edp Fdp Hdp
      Efp1 Ffp1 Hfp1 Efp2 Ffp2 E1 F1 E2 F2.
    destruct (domestic_payoff_Return d t dp Edp) as (ty & Ety & Edp').
    destruct (foreign_payoff_Return f1 s t fp1 Efp1)
      as (ty1 & Ety1 & Zs & Efp1').
    destruct (foreign_payoff_Return f2 s t fp2 Efp2)
      as (ty2 & Ety2 & _ & Efp2').
    destruct (calculate_forward_rate_Return d f1 s t r1 E1)
      as (ty3 & Ety3 & _ & _ & Er1).
    destruct (calculate_forward_rate_Return d f2 s t r2 E2)
      as (ty4 & Ety4 & _ & _ & Er2).
    rewrite Ety in Ety1, Ety2, Ety3, Ety4.
    injection Ety1 as <-. injection Ety2 as <-.
    injection Ety3 as <-. injection Ety4 as <-.
    rewrite <- Edp', <- Efp1' in Er1. rewrite <- Edp', <- Efp2' in Er2.
    subst r1 r2.
    destruct (tenor_years_nonneg t ty Ht Ety) as (Vty & Fty & Hty).
    set (inv := div (of_int 1) s) in *.
    assert (Fs : is_finite s = true).
    { destruct s; try reflexivity; cbn [to_Q] in Hs; lra. }
    assert (Rinv : rounded (1 / to_Q s) inv).
    { eapply rounded_Qeq; [| apply (div_rounded (of_int 1) s eq_refl Fs Zs)].
      rewrite to_Q_one. reflexivity. }
    assert (Fb1 : is_finite (mul (add (of_int 1) (mul f1 ty)) inv) = true)
      by (rewrite <- Efp1'; assumption).
    assert (Fb2 : is_finite (mul (add (of_int 1) (mul f2 ty)) inv) = true)
      by (rewrite <- Efp2'; assumption).
    destruct (mul_finite_inv _ _ Fb1) as [Fc1 Finv].
    destruct (mul_finite_inv _ _ Fb2) as [Fc2 _].
    assert (Hinv : 0 <= to_Q inv).
    { apply (rounded_nonneg _ _ Rinv Finv).
      apply Qle_shift_div_l; [assumption | lra]. }
    assert (Hfp : to_Q fp1 <= to_Q fp2).
    { rewrite Efp1', Efp2'.
      apply mul_mono_l; try assumption;
        try apply add_one_is_float; try apply div_is_float.
      apply add_one_mono; try assumption;
        try (apply mul_is_float; assumption).
      destruct (add_finite_inv _ _ Fc1) as [_ Fa1].
      destruct (add_finite_inv _ _ Fc2) as [_ Fa2].
      apply mul_mono_l; assumption. }
    apply div_anti_den; assumption.
Qed.

Lemma forward_rate_monotone_on_floats_at_one_year :
  (0 < 365)%Z /\
  to_Q (S754_finite false 4636058439940217 (-52)) <=
  to_Q (S754_finite false 4680211377463457 (-52)) /\
  to_Q (S754_finite false 4503599627370496 (-52)) <=
  to_Q (S754_finite false 4636058439940217 (-52)).
Proof.
  split; [reflexivity |].
  destruct (forward_rate_monotone_on_floats 365 Inputs.spot_1 eq_refl)
    as [Hd Hf].
  split.
  - apply (Hd Inputs.rate_5_percent Inputs.rate_6_percent Inputs.rate_2_percent
             (S754_finite false 4593671619917906 (-52)));
      vm_compute; (reflexivity || discriminate).
  - apply (Hf Inputs.rate_5_percent Inputs.rate_2_percent Inputs.rate_5_percent
             (S754_finite false 4728779608739021 (-52))
             (S754_finite false 4593671619917906 (-52))
             (S754_finite false 4728779608739021 (-52)));
      vm_compute; (reflexivity || discriminate).
Defined.

(** C9. For a spot rate that is not zero and a tenor of [t <> 0] days with
    [|t| <= 2^1000], [annualised_premium_discount] returns
    [(forward_spot_ratio - 1) * per_year] rounded to 4 decimal places, where
    [forward_spot_ratio] is the rounded property and [per_year] is the float
    [1 / (t / 360)]: the quotient [t / 360] is within [2^-53] (relative) of
    the exact one, and [per_year] is a finite float within [3 * 2^-53] of
    [360 / t], which need not be the float nearest to [360 / t].
    [calculate_forward_rate] scales both rates by the float [t / 365],
    within [2^-53] of the exact quotient: ACT/365. *)
Theorem annualised_scales_by_reciprocal_of_tenor_over_360
    (self : ForwardRateInterpreter spec_float) :
  is_zero (spot_rate self) = false ->
  tenor_days self <> 0%Z -> (Z.abs (tenor_days self) <= 2 ^ 1000)%Z ->
  (exists ratio tenor_years per_year,
     forward_spot_ratio self = Return ratio /\
     int_div (tenor_days self) 360 = Return tenor_years /\
     truediv (of_int 1) tenor_years = Return per_year /\
     annualised_premium_discount self =
       Return (round (mul (sub ratio (of_int 1)) per_year) 4) /\
     is_finite tenor_years = true /\
     Qabs (to_Q tenor_years - inject_Z (tenor_days self) / 360) <=
       u53 * Qabs (inject_Z (tenor_days self) / 360) /\
     is_finite per_year = true /\
     Qabs (to_Q per_year - 360 / inject_Z (tenor_days self)) <=
       (3 # 9007199254740992) * Qabs (360 / inject_Z (tenor_days self))) /\
  (forall (d f s : spec_float) (t : Z) (tenor_years : spec_float),
     int_div t 365 = Return tenor_years ->
     is_finite tenor_years = true /\
     Qabs (to_Q tenor_years - inject_Z t / 365) <=
       u53 * Qabs (inject_Z t / 365) /\
     calculate_forward_rate d f t s =
       bind (truediv (of_int 1) s)
         (fun inverse_spot =>
            truediv (add (of_int 1) (mul d tenor_years))
              (mul (add (of_int 1) (mul f tenor_years)) inverse_spot))).
Proof.
  intros Zs Ht Hb. split.
  - destruct (per_year_close (tenor_days self) Ht Hb)
      as (ty & per & Ety & Eper & Fper & Hper).
    exists (round (div (forward_rate self) (spot_rate self)) 4), ty, per.
    assert (Eratio : forward_spot_ratio self =
                     Return (round (div (forward_rate self) (spot_rate self)) 4)).
    { unfold forward_spot_ratio.
      cbn [float_truediv round_ndigits binary64]. unfold truediv.
      rewrite Zs. reflexivity. }
    split; [exact Eratio |]. split; [exact Ety |]. split; [exact Eper |].
    split; [| split; [| split; [| split; assumption]]].
    + unfold annualised_premium_discount. rewrite Eratio. cbn [bind].
      cbn [int_truediv float_truediv float_sub float_mul float_of_int
           round_ndigits binary64].
      rewrite Ety. cbn [bind]. rewrite Eper. reflexivity.
    + apply (int_div_rounded (tenor_days self) 360 ty Ety).
    + apply (tenor_years_close (tenor_days self) 360 ty); [lia | exact Ety].
  - intros d f s t ty Ety. split; [| split].
    + apply (int_div_rounded t 365 ty Ety).
    + apply (tenor_years_close t 365 ty); [lia | exact Ety].
    + unfold calculate_forward_rate.
      cbn [int_truediv float_truediv float_add float_mul float_of_int binary64].
      rewrite Ety. reflexivity.
Qed.

Lemma annualised_scales_by_reciprocal_at_400_days :
  exists ratio tenor_years per_year,
    forward_spot_ratio Inputs.long_tenor = Return ratio /\
    int_div 400 360 = Return tenor_years /\
    truediv (of_int 1) tenor_years = Return per_year /\
    annualised_premium_discount Inputs.long_tenor =
      Return (round (mul (sub ratio (of_int 1)) per_year) 4) /\
    is_finite per_year = true /\
    Qabs (to_Q per_year - 360 / 400) <=
      (3 # 9007199254740992) * Qabs (360 / 400).
Proof.
  destruct (annualised_scales_by_reciprocal_of_tenor_over_360
              Inputs.long_tenor eq_refl ltac:(discriminate)
              ltac:(vm_compute; discriminate))
    as [(ratio & ty & per & H1 & H2 & H3 & H4 & _ & _ & H5 & H6) _].
  exists ratio, ty, per. repeat split; assumption.
Defined.

End UpToRounding.

Set Implicit Arguments.

(** * Further properties *)

(** ** Tenor lists compose *)

Section MultipleRatesCompose.

Context {F : Type} `{PyFloat F}.
Variables (d f s : F).

(** The loop continues a list it was given as it extends the empty one. *)
Lemma forward_rates_loop_from (tenors : list Z) :
  forall done,
    forward_rates_loop d f tenors s done =
    bind (forward_rates_loop d f tenors s [])
         (fun fresh => Return (done ++ fresh)).
Proof.
  induction tenors as [|t rest IH]; intros done; simpl.
  - now rewrite app_nil_r.
  - destruct (calculate_forward_rate d f t s) as [r|e]; simpl; [|reflexivity].
    rewrite (IH (done ++ [r])), (IH [r]).
    destruct (forward_rates_loop d f rest s []) as [fresh|e]; simpl;
      [|reflexivity].
    now rewrite <- app_assoc.
Qed.

Lemma forward_rates_loop_app (first second : list Z) :
  forall done,
    forward_rates_loop d f (first ++ second) s done =
    bind (forward_rates_loop d f first s done)
         (fun rates => forward_rates_loop d f second s rates).
Proof.
  induction first as [|t rest IH]; intros done; simpl; [reflexivity|].
  destruct (calculate_forward_rate d f t s) as [r|e]; simpl; [|reflexivity].
  apply IH.
Qed.

End MultipleRatesCompose.

(** X1. The rates of a concatenation of two tenor lists are the rates of
    the first list followed by the rates of the second; when a call raises
    in the first list the second list is not looked at, and otherwise a
    raise in the second list is the result. *)
Theorem multiple_forward_rates_concatenate
    {F : Type} `{PyFloat F} (d f s : F) (first second : list Z) :
  calculate_multiple_forward_rates d f (first ++ second) s =
  bind (calculate_multiple_forward_rates d f first s)
       (fun head =>
          bind (calculate_multiple_forward_rates d f second s)
               (fun tail => Return (head ++ tail))).
Proof.
  unfold calculate_multiple_forward_rates.
  rewrite forward_rates_loop_app.
  destruct (forward_rates_loop d f first s []) as [head|e]; simpl;
    [|reflexivity].
  apply forward_rates_loop_from.
Qed.

(** ** Not-a-number on binary64 *)

Section NotANumber.

Import Binary64.

Lemma mul_nan_l (y : spec_float) : mul S754_nan y = S754_nan.
Proof. reflexivity. Qed.

Lemma mul_nan_r (x : spec_float) : mul x S754_nan = S754_nan.
Proof. now destruct x. Qed.

Lemma add_nan_r (x : spec_float) : add x S754_nan = S754_nan.
Proof. now destruct x. Qed.

Lemma sub_nan_l (y : spec_float) : sub S754_nan y = S754_nan.
Proof. reflexivity. Qed.

Lemma sub_nan_r (x : spec_float) : sub x S754_nan = S754_nan.
Proof. now destruct x. Qed.

Lemma div_nan_l (y : spec_float) : div S754_nan y = S754_nan.
Proof. reflexivity. Qed.

Lemma div_nan_r (x : spec_float) : div x S754_nan = S754_nan.
Proof. now destruct x. Qed.

Lemma truediv_nan_r (x : spec_float) : truediv x S754_nan = Return S754_nan.
Proof. unfold truediv. simpl. now rewrite div_nan_r. Qed.

Lemma truediv_nan_l (y : spec_float) :
  truediv S754_nan y = Return S754_nan \/
  truediv S754_nan y = Raise ZeroDivisionError.
Proof. unfold truediv. destruct (is_zero y); auto. Qed.

End NotANumber.

(** Pushes a NaN operand through the operations of hypothesis [E]. *)
Ltac nan_steps E :=
  repeat (progress
            rewrite ?mul_nan_l, ?mul_nan_r, ?add_nan_r, ?sub_nan_l, ?sub_nan_r,
                    ?div_nan_l, ?div_nan_r, ?truediv_nan_r in E).

(** X2. A NaN among the two rates and the spot rate is not reported: when
    [calculate_forward_rate] returns, it returns NaN. *)
Theorem forward_rate_propagates_nan (d f s rate : spec_float) (t : Z) :
  d = S754_nan \/ f = S754_nan \/ s = S754_nan ->
  calculate_forward_rate d f t s = Return rate ->
  rate = S754_nan.
Proof.
  intros Hnan E. unfold calculate_forward_rate in E.
  apply bind_Return in E as (ty & _ & E).
  apply bind_Return in E as (inv & Einv & E).
  cbn [float_truediv float_add float_mul float_of_int Binary64.binary64] in *.
  destruct Hnan as [-> | [-> | ->]].
  - nan_steps E.
    destruct (truediv_nan_l
                (Binary64.mul (Binary64.add (Binary64.of_int 1)
                                            (Binary64.mul f ty)) inv))
      as [K|K]; rewrite K in E; congruence.
  - nan_steps E. congruence.
  - rewrite truediv_nan_r in Einv. injection Einv as <-.
    nan_steps E. congruence.
Qed.

(** X2 at the rates NaN and 0.02, 365 days, spot 1.0. *)
Lemma forward_rate_propagates_nan_at_one_year :
  (S754_nan = S754_nan \/ Inputs.rate_2_percent = S754_nan \/
   Inputs.spot_1 = S754_nan) /\
  calculate_forward_rate S754_nan Inputs.rate_2_percent 365 Inputs.spot_1
  = Return S754_nan.
Proof.
  split; [now left|].
  assert (E : exists rate,
             calculate_forward_rate S754_nan Inputs.rate_2_percent 365
               Inputs.spot_1 = Return rate)
    by (eexists; vm_compute; reflexivity).
  destruct E as (rate & E). rewrite E. f_equal.
  exact (@forward_rate_propagates_nan S754_nan Inputs.rate_2_percent
           Inputs.spot_1 rate 365 (or_introl eq_refl) E).
Defined.

(** X3. [does_cip_equality_hold] never returns [True] for a forward rate
    that is infinite or NaN, nor when one of the two rates or the spot rate
    is NaN: the residual is then infinite or NaN, and is not below the
    tolerance. *)
Theorem cip_check_rejects_non_finite (fr d f s : spec_float) (t : Z) :
  Binary64.is_finite fr = false \/
  d = S754_nan \/ f = S754_nan \/ s = S754_nan ->
  does_cip_equality_hold fr d f t s <> Return true.
Proof.
  intros Hnan E. unfold does_cip_equality_hold in E.
  apply bind_Return in E as (ty & _ & E).
  apply bind_Return in E as (inv & Einv & E).
  cbn [float_truediv float_add float_sub float_mul float_of_int float_abs
       float_lt float_lit Binary64.binary64] in *.
  set (payoff := Binary64.add (Binary64.of_int 1) (Binary64.mul d ty)) in E.
  set (divisor := Binary64.mul
                    (Binary64.add (Binary64.of_int 1) (Binary64.mul f ty))
                    inv) in E.
  assert (K : Binary64.sub payoff (Binary64.mul divisor fr) = S754_nan \/
              exists negative,
                Binary64.sub payoff (Binary64.mul divisor fr)
                = S754_infinity negative).
  { destruct Hnan as [Hfr | [-> | [-> | ->]]].
    - destruct fr as [sf|sf| |sf mf ef]; try discriminate.
      + destruct divisor as [sd|sd| |sd md ed],
                 payoff as [sp|sp| |sp mp ep];
          cbn; auto; try (right; eexists; reflexivity);
          destruct sp, sd, sf; cbn; auto; right; eexists; reflexivity.
      + left. now rewrite mul_nan_r, sub_nan_r.
    - left. subst payoff. now rewrite mul_nan_l, add_nan_r, sub_nan_l.
    - left. subst divisor.
      now rewrite (mul_nan_l ty), add_nan_r, !mul_nan_l, sub_nan_r.
    - left. rewrite truediv_nan_r in Einv. injection Einv as <-.
      subst divisor. now rewrite mul_nan_r, mul_nan_l, sub_nan_r. }
  destruct K as [K | (negative & K)]; rewrite K in E;
    vm_compute in E; discriminate E.
Qed.

(** X3 at the forward rate NaN and the quote 0.05, 0.02, 365 days, 1.0. *)
Lemma cip_check_rejects_non_finite_at_one_year :
  (Binary64.is_finite S754_nan = false \/ Inputs.rate_5_percent = S754_nan \/
   Inputs.rate_2_percent = S754_nan \/ Inputs.spot_1 = S754_nan) /\
  does_cip_equality_hold S754_nan Inputs.rate_5_percent Inputs.rate_2_percent
    365 Inputs.spot_1 = Return false.
Proof.
  split; [now left|].
  pose proof (@cip_check_rejects_non_finite S754_nan Inputs.rate_5_percent
                Inputs.rate_2_percent Inputs.spot_1 365
                (or_introl eq_refl)) as H.
  destruct (does_cip_equality_hold S754_nan Inputs.rate_5_percent
              Inputs.rate_2_percent 365 Inputs.spot_1) as [[|]|e] eqn:E.
  - now destruct H.
  - reflexivity.
  - vm_compute in E. discriminate E.
Defined.

(** ** The interpreter at the edges, on binary64 *)

Section EqualQuotes.

Import Binary64.
Local Open Scope Z_scope.

(** A finite float divided by itself is 1.0: the quotient of the mantissas
    is exact. *)
Lemma div_self (negative : bool) (m : positive) (e : Z) :
  div (S754_finite negative m e) (S754_finite negative m e) = of_int 1.
Proof.
  unfold div, SFdiv, SFdiv_core_binary.
  replace (Zdigits2 (Zpos m) + e - (Zdigits2 (Zpos m) + e)) with 0 by lia.
  replace (e - e) with 0 by lia.
  change (Z.min (fexp prec emax 0) 0) with (-53).
  change (0 - -53) with 53.
  assert (E : Z.div_eucl (Z.shiftl (Zpos m) 53) (Zpos m) = (2 ^ 53, 0)).
  { rewrite Z.shiftl_mul_pow2 by lia.
    rewrite (surjective_pairing (Z.div_eucl (Zpos m * 2 ^ 53) (Zpos m))).
    change (fst (Z.div_eucl (Zpos m * 2 ^ 53) (Zpos m)))
      with (Zpos m * 2 ^ 53 / Zpos m).
    change (snd (Z.div_eucl (Zpos m * 2 ^ 53) (Zpos m)))
      with ((Zpos m * 2 ^ 53) mod Zpos m).
    rewrite (Z.mul_comm (Zpos m)), Z.div_mul, Z.mod_mul by lia. reflexivity. }
  cbv beta iota.
  change (IntDef.Z.div_eucl (IntDef.Z.shiftl (Zpos m) 53) (Zpos m))
    with (Z.div_eucl (Z.shiftl (Zpos m) 53) (Zpos m)).
  rewrite E, xorb_nilpotent. cbv beta iota zeta.
  unfold new_location.
  destruct (Z.even (Zpos m)); vm_compute; reflexivity.
Qed.

(** A finite float minus itself is +0.0. *)
Lemma sub_self (negative : bool) (m : positive) (e : Z) :
  sub (S754_finite negative m e) (S754_finite negative m e) = S754_zero false.
Proof.
  unfold sub, SFsub. rewrite Z.min_id, Z.sub_diag. reflexivity.
Qed.

End EqualQuotes.

(** X4. When the forward rate and the spot rate are the same finite,
    non-zero float, whatever the tenor: the ratio is 1.0, the premium and the
    forward points are 0.0, and the interpretation is the one for a forward
    rate below the spot rate, with 0.00 percent. *)
Theorem equal_quotes_read_as_forward_below_spot
    (negative : bool) (m : positive) (e : Z) (t : Z) :
  forward_spot_ratio
    {| forward_rate := S754_finite negative m e;
       spot_rate := S754_finite negative m e; tenor_days := t |}
  = Return (Binary64.of_int 1) /\
  forward_premium_discount
    {| forward_rate := S754_finite negative m e;
       spot_rate := S754_finite negative m e; tenor_days := t |}
  = Return (S754_zero false) /\
  forward_points
    {| forward_rate := S754_finite negative m e;
       spot_rate := S754_finite negative m e; tenor_days := t |}
  = Return (S754_zero false) /\
  exists second third fourth,
    get_detailed_interpretations
      {| forward_rate := S754_finite negative m e;
         spot_rate := S754_finite negative m e; tenor_days := t |}
    = Return [
        "The forward rate is less than the spot rate which implies that domestic rates are lower than foreign rates."%string;
        second; third; fourth;
        "Domestic currency must be 0.00% more expensive in the forward (relative to spot) to prevent arbitrage."%string;
        "Foreign currency must be 0.00% cheaper in the forward to prevent arbitrage."%string].
Proof.
  assert (Eratio : forward_spot_ratio
                     {| forward_rate := S754_finite negative m e;
                        spot_rate := S754_finite negative m e;
                        tenor_days := t |}
                   = Return (Binary64.of_int 1)).
  { unfold forward_spot_ratio.
    cbn [float_truediv round_ndigits Binary64.binary64 forward_rate spot_rate
         Binary64.truediv Binary64.is_zero bind].
    rewrite div_self. vm_compute. reflexivity. }
  split; [exact Eratio|]. split; [|split].
  - unfold forward_premium_discount. rewrite Eratio. vm_compute. reflexivity.
  - unfold forward_points.
    cbn [float_sub float_mul float_of_int round_ndigits Binary64.binary64
         forward_rate spot_rate].
    rewrite sub_self. vm_compute. reflexivity.
  - unfold get_detailed_interpretations, percent_field. rewrite Eratio.
    do 3 eexists. vm_compute. reflexivity.
Qed.

(** X5. A NaN forward rate over a spot rate that is not zero, or a NaN spot
    rate, is not reported either: the ratio, the premium and the forward
    points are NaN, the annualised premium is NaN when it is returned, and
    the interpretation is the one for a forward rate below the spot rate,
    with [nan] for the percentage. *)
Theorem nan_quote_is_interpreted
    (self : ForwardRateInterpreter spec_float) :
  (forward_rate self = S754_nan /\ Binary64.is_zero (spot_rate self) = false) \/
  spot_rate self = S754_nan ->
  forward_spot_ratio self = Return S754_nan /\
  forward_premium_discount self = Return S754_nan /\
  forward_points self = Return S754_nan /\
  (forall r, annualised_premium_discount self = Return r -> r = S754_nan) /\
  exists second third fourth,
    get_detailed_interpretations self
    = Return [
        "The forward rate is less than the spot rate which implies that domestic rates are lower than foreign rates."%string;
        second; third; fourth;
        "Domestic currency must be nan% more expensive in the forward (relative to spot) to prevent arbitrage."%string;
        "Foreign currency must be nan% cheaper in the forward to prevent arbitrage."%string].
Proof.
  intros Hnan.
  assert (Eratio : forward_spot_ratio self = Return S754_nan).
  { unfold forward_spot_ratio.
    cbn [float_truediv round_ndigits Binary64.binary64].
    destruct Hnan as [[-> Hs] | ->].
    - now rewrite (truediv_nonzero _ _ Hs).
    - now rewrite truediv_nan_r. }
  split; [exact Eratio|]. split; [|split; [|split]].
  - unfold forward_premium_discount. now rewrite Eratio.
  - unfold forward_points.
    cbn [float_sub float_mul float_of_int round_ndigits Binary64.binary64].
    destruct Hnan as [[-> _] | ->].
    + reflexivity.
    + now rewrite sub_nan_r.
  - intros r E. unfold annualised_premium_discount in E.
    rewrite Eratio in E. cbn [bind] in E.
    apply bind_Return in E as (ty & _ & E).
    apply bind_Return in E as (per_year & _ & E).
    now injection E as <-.
  - unfold get_detailed_interpretations, percent_field. rewrite Eratio.
    do 3 eexists. vm_compute. reflexivity.
Qed.

(** X5 at [ForwardRateInterpreter(nan, 1.0, 90)]. *)
Lemma nan_quote_is_interpreted_at_spot_1 :
  ((S754_nan = S754_nan /\ Binary64.is_zero Inputs.spot_1 = false) \/
   Inputs.spot_1 = S754_nan) /\
  forward_points
    {| forward_rate := S754_nan; spot_rate := Inputs.spot_1; tenor_days := 90 |}
  = Return S754_nan.
Proof.
  split; [left; split; reflexivity|].
  apply (@nan_quote_is_interpreted
           {| forward_rate := S754_nan; spot_rate := Inputs.spot_1;
              tenor_days := 90 |}).
  left; split; reflexivity.
Defined.

(** ** Signs on binary64 *)

Section Signs.

Import Binary64.
Local Open Scope Z_scope.

(** Rounding does not look at the sign. *)
Lemma binary_round_aux_opp (negative : bool) (m e : Z) (l : location) :
  binary_round_aux prec emax (negb negative) m e l =
  SFopp (binary_round_aux prec emax negative m e l).
Proof.
  unfold binary_round_aux.
  destruct (shr_fexp prec emax m e l) as [mrs e'].
  destruct (shr_fexp prec emax _ e' loc_Exact) as [mrs' e''].
  destruct (shr_m mrs') as [|p|p]; try reflexivity.
  destruct (e'' <=? emax - prec); reflexivity.
Qed.

Lemma binary_round_opp (negative : bool) (m : positive) (e : Z) :
  binary_round prec emax (negb negative) m e =
  SFopp (binary_round prec emax negative m e).
Proof.
  unfold binary_round.
  destruct (shl_align m e _) as [mz ez]. apply binary_round_aux_opp.
Qed.

(** The difference the other way round is the opposite float, or both are
    +0.0. *)
Lemma binary_normalize_opp (z e : Z) :
  binary_normalize prec emax (- z) e false =
  SFopp (binary_normalize prec emax z e false) \/
  (binary_normalize prec emax (- z) e false = S754_zero false /\
   binary_normalize prec emax z e false = S754_zero false).
Proof.
  destruct z as [|p|p]; simpl.
  - right. split; reflexivity.
  - left. apply (binary_round_opp false).
  - left. apply (binary_round_opp true).
Qed.

(** Swapping the operands of a subtraction. *)
Lemma sub_swap (x y : spec_float) :
  sub y x = SFopp (sub x y) \/
  (sub y x = S754_zero false /\ sub x y = S754_zero false).
Proof.
  destruct x as [sx|sx| |sx mx ex], y as [sy|sy| |sy my ey];
    try (left; reflexivity);
    try (destruct sx, sy; (left; reflexivity) || (right; split; reflexivity)).
  unfold sub, SFsub. rewrite (Z.min_comm ey ex).
  set (a := cond_Zopp sx (Zpos (fst (shl_align mx ex (Z.min ex ey))))).
  set (b := cond_Zopp sy (Zpos (fst (shl_align my ey (Z.min ex ey))))).
  replace (b - a) with (- (a - b)) by lia.
  apply binary_normalize_opp.
Qed.

Lemma mul_opp_l (x c : spec_float) : mul (SFopp x) c = SFopp (mul x c).
Proof.
  destruct x as [sx|sx| |sx mx ex], c as [sc|sc| |sc mc ec];
    try reflexivity; try (destruct sx, sc; reflexivity).
  unfold mul, SFmul, SFopp.
  replace (xorb (negb sx) sc) with (negb (xorb sx sc)) by (now destruct sx, sc).
  apply binary_round_aux_opp.
Qed.

Lemma of_ratio_opp (negative : bool) (n : Z) (d : positive) :
  of_ratio (negb negative) n d = SFopp (of_ratio negative n d).
Proof.
  destruct n as [|p|p]; try reflexivity.
  unfold of_ratio, div, SFdiv.
  destruct (SFdiv_core_binary prec emax (Zpos p) 0 (Zpos d) 0) as [[mz ez] lz].
  rewrite !xorb_false_r. apply binary_round_aux_opp.
Qed.

Lemma round_opp (x : spec_float) (nd : nat) :
  round (SFopp x) nd = SFopp (round x nd).
Proof.
  destruct x as [sx|sx| |sx mx ex]; try reflexivity.
  apply of_ratio_opp.
Qed.

End Signs.

(** X6. Swapping the forward rate and the spot rate negates the forward
    points: the property of the swapped pair is the opposite float (NaN for
    NaN), or both are +0.0, as for equal quotes. *)
Theorem forward_points_of_swapped_quotes (forward spot : spec_float) (t : Z) :
  exists points swapped,
    forward_points
      {| forward_rate := forward; spot_rate := spot; tenor_days := t |}
    = Return points /\
    forward_points
      {| forward_rate := spot; spot_rate := forward; tenor_days := t |}
    = Return swapped /\
    (swapped = SFopp points \/
     (swapped = S754_zero false /\ points = S754_zero false)).
Proof.
  do 2 eexists. split; [reflexivity|]. split; [reflexivity|].
  cbn [float_sub float_mul float_of_int round_ndigits Binary64.binary64
       forward_rate spot_rate].
  destruct (sub_swap forward spot) as [-> | [-> ->]].
  - left. now rewrite mul_opp_l, round_opp.
  - right. split; vm_compute; reflexivity.
Qed.

(** ** More edges of the engine on binary64 *)

(** X17. With no day to maturity the two rates do not matter, as long as
    they are finite: every pair of finite rates gives the same result,
    [1 / (1 * (1 / spot_rate))] or the exception of its divisions. *)
Theorem zero_tenor_ignores_finite_rates (d f d' f' s : spec_float) :
  Binary64.is_finite d = true -> Binary64.is_finite f = true ->
  Binary64.is_finite d' = true -> Binary64.is_finite f' = true ->
  calculate_forward_rate d f 0 s = calculate_forward_rate d' f' 0 s.
Proof.
  intros Hd Hf Hd' Hf'.
  now rewrite (@zero_tenor_is_double_reciprocal d f s Hd Hf),
              (@zero_tenor_is_double_reciprocal d' f' s Hd' Hf').
Qed.

(** X17 at the rates 5% and 2% against 6% and 2%, spot 49.0. *)
Lemma zero_tenor_ignores_finite_rates_at_49 :
  Binary64.is_finite Inputs.rate_5_percent = true /\
  Binary64.is_finite Inputs.rate_2_percent = true /\
  Binary64.is_finite Inputs.rate_6_percent = true /\
  calculate_forward_rate Inputs.rate_5_percent Inputs.rate_2_percent 0
    Inputs.spot_49
  = calculate_forward_rate Inputs.rate_6_percent Inputs.rate_2_percent 0
      Inputs.spot_49.
Proof.
  repeat (split; [reflexivity|]).
  apply zero_tenor_ignores_finite_rates; reflexivity.
Defined.

(** X18. An infinite spot rate gives no number: its reciprocal is a zero,
    the foreign payoff in foreign currency a zero or NaN, and
    [calculate_forward_rate] raises or returns NaN. *)
Theorem infinite_spot_gives_no_number
    (d f rate : spec_float) (t : Z) (negative : bool) :
  calculate_forward_rate d f t (S754_infinity negative) = Return rate ->
  rate = S754_nan.
Proof.
  intros E. unfold calculate_forward_rate in E.
  apply bind_Return in E as (ty & _ & E).
  cbn [float_truediv float_add float_mul float_of_int Binary64.binary64
       Binary64.truediv Binary64.is_zero bind] in E.
  change (Binary64.div (Binary64.of_int 1) (S754_infinity negative))
    with (S754_zero negative) in E.
  destruct (Binary64.add (Binary64.of_int 1) (Binary64.mul f ty))
    as [sp|sp| |sp mp ep]; cbn in E; try discriminate;
    injection E as <-; apply div_nan_r.
Qed.

(** X18 at the domestic rate 0.05, an infinite foreign rate and 365 days:
    NaN is returned. *)
Lemma infinite_spot_gives_no_number_at_one_year :
  calculate_forward_rate Inputs.rate_5_percent (S754_infinity false) 365
    (S754_infinity false) = Return S754_nan.
Proof.
  assert (E : exists rate,
             calculate_forward_rate Inputs.rate_5_percent (S754_infinity false)
               365 (S754_infinity false) = Return rate)
    by (eexists; vm_compute; reflexivity).
  destruct E as (rate & E). rewrite E. f_equal.
  exact (@infinite_spot_gives_no_number Inputs.rate_5_percent
           (S754_infinity false) rate 365 false E).
Defined.
